(** * Backlinks of a note collection: finder and rewriter

    A shallow embedding of [src/editor/useBacklinks.ts]: the search for the
    note links that point at a note ([getBacklinks]) and the rewrite of
    those links when the note is renamed ([updateBacklinks]). *)

From Stdlib Require Import Sorting.Sorted.
From stdpp Require Import base list strings.

Local Open Scope string_scope.
Local Open Scope list_scope.

#[local] Set Warnings "-register-all".

(** ** Slate documents *)

(** A Slate path: the indices to follow from the top-level sequence. *)
Definition Path := list nat.

(** Modelled from the spec: the element type declarations of [types/slate]
    are not part of the sources. An element is a note link, carrying the
    identifier of the note it points at, a copy of that note's title and
    the flag telling that the link text mirrors the title, or an element of
    any other type, of which only the tag is kept. *)
Inductive ElementData : Type :=
  | NoteLink (noteId : string) (noteTitle : string) (isTextTitle : bool)
  | OtherElement (type : string).

(** A node of a document. [Text] is an object with a [text] property and
    its formatting marks. [Element] is an object with a [children] array;
    its last field is the [text] property of that object: absent on every
    element an editor produces, it is there because line 69 of the source
    assigns [text] on whatever child a link has. *)
Inductive Descendant : Type :=
  | Text (text : string) (marks : list string)
  | Element (data : ElementData) (children : list Descendant)
            (text : option string).

(** The induction principle that reaches the children of an element. *)
Section DescendantInd.
Variable P : Descendant -> Prop.
Hypothesis HText : forall s marks, P (Text s marks).
Hypothesis HElement :
  forall d children t, Forall P children -> P (Element d children t).

Fixpoint Descendant_nested_ind (node : Descendant) : P node :=
  match node with
  | Text s marks => HText s marks
  | Element d children t =>
      HElement d children t
        ((fix all (l : list Descendant) : Forall P l :=
            match l with
            | [] => @List.Forall_nil _ P
            | x :: l' =>
                @List.Forall_cons _ P x l' (Descendant_nested_ind x) (all l')
            end) children)
  end.
End DescendantInd.

(** Slate's [Text.isText]: a plain object whose [text] is a string. *)
Module Text.
Definition isText (node : Descendant) : bool :=
  match node with
  | Text _ _ => true
  | Element _ _ t => bool_decide (is_Some t)
  end.
End Text.

(** Slate's [Element.isElement]: a plain object whose [children] is a list
    of nodes. *)
Module Element.
Definition isElement (node : Descendant) : bool :=
  match node with
  | Text _ _ => false
  | Element _ _ _ => true
  end.

(** [node.type === ElementType.NoteLink] *)
Definition isNoteLink (node : Descendant) : bool :=
  match node with
  | Element (NoteLink _ _ _) _ _ => true
  | _ => false
  end.
End Element.

(** Slate's [Node.string]: the text of a text node, the concatenation of
    the strings of the children otherwise. *)
Module Node.
Fixpoint string (node : Descendant) : String.string :=
  match node with
  | Text s _ => s
  | Element _ children t =>
      match t with
      | Some s => s
      | None => String.concat "" (map string children)
      end
  end.
End Node.

(** A JavaScript string used as a condition is true when it is not empty. *)
Definition truthy (s : string) : bool :=
  match s with
  | EmptyString => false
  | String _ _ => true
  end.

(** ** Notes, backlinks and matches *)

Record Note : Type := mkNote {
  note_id : string;
  note_title : string;
  note_user_id : string;
  note_content : list Descendant;
}.

Record Match : Type := mkMatch {
  context : string;
  path : Path;
}.

Record Backlink : Type := mkBacklink {
  id : string;
  title : string;
  matches : list Match;
}.

(** ** The finder *)

(** The test of lines 131-135 on a child that is an element. *)
Definition linksTo (noteId : string) (child : Descendant) : bool :=
  match child with
  | Element (NoteLink target _ _) _ _ =>
      bool_decide (target = noteId) && truthy (Node.string child)
  | _ => false
  end.

Fixpoint getBacklinkMatchesHelper
    (node : Descendant) (noteId : string) (path : Path) : list Match :=
  if Text.isText node then []
  else
    match node with
    | Text _ _ => []
    | Element _ children _ =>
        (fix entries (cs : list Descendant) (index : nat) : list Match :=
           match cs with
           | [] => []
           | child :: rest =>
               (if Element.isElement child then
                  (if linksTo noteId child
                   then [mkMatch (Node.string node) (path ++ [index])]
                   else [])
                  ++ getBacklinkMatchesHelper child noteId (path ++ [index])
                else [])
               ++ entries rest (S index)
           end) children 0
    end.

(** The loop of [getBacklinkMatches], from the index [index] onwards. *)
Fixpoint getBacklinkMatchesFrom
    (nodes : list Descendant) (noteId : string) (index : nat) : list Match :=
  match nodes with
  | [] => []
  | node :: rest =>
      getBacklinkMatchesHelper node noteId [index]
      ++ getBacklinkMatchesFrom rest noteId (S index)
  end.

Definition getBacklinkMatches
    (nodes : list Descendant) (noteId : string) : list Match :=
  getBacklinkMatchesFrom nodes noteId 0.

Fixpoint getBacklinks (notes : list Note) (noteId : string) : list Backlink :=
  match notes with
  | [] => []
  | note :: rest =>
      let matches := getBacklinkMatches (note_content note) noteId in
      (if bool_decide (0 < length matches)
       then [mkBacklink (note_id note) (note_title note) matches]
       else [])
      ++ getBacklinks rest noteId
  end.

(** ** Completions and effects *)

(** What a piece of JavaScript ends with: a value, or a thrown error. The
    only error this code can raise is the [TypeError] of reading a property
    of [undefined]. *)
Inductive JsError : Type := TypeError.

Inductive Completion (A : Type) : Type :=
  | Normal (a : A)
  | Throw (e : JsError).
Arguments Normal {A} a.
Arguments Throw {A} e.

(** What the callback can do to the outside: write on the console and hand
    batches of rows to the [notes] table. *)
Record World : Type := mkWorld {
  console : list string;
  upserts : list (list Note);
}.

Definition M (A : Type) : Type := World -> Completion A * World.

Definition ret {A} (a : A) : M A := fun w => (Normal a, w).

Definition bind {A B} (m : M A) (k : A -> M B) : M B :=
  fun w =>
    match m w with
    | (Normal a, w') => k a w'
    | (Throw e, w') => (Throw e, w')
    end.

Definition lift {A} (c : Completion A) : M A := fun w => (c, w).

Definition console_error (msg : string) : M unit :=
  fun w => (Normal tt, mkWorld (console w ++ [msg]) (upserts w)).

Definition upsert (rows : list Note) : M unit :=
  fun w => (Normal tt, mkWorld (console w) (upserts w ++ [rows])).

Notation "x <- m ;; k" := (bind m (fun x => k))
  (at level 100, m at next level, right associativity).
Notation "m ;;; k" := (bind m (fun _ => k))
  (at level 100, right associativity).

(** ** The rewriter *)

Record User : Type := mkUser { user_id : string }.

(** One step of the loop of lines 51-53, [linkNode.children[pathNumber]],
    where [None] is [undefined]: reading [children] of [undefined], or
    indexing the [children] a text node does not have, throws. *)
Definition childAt (linkNode : option Descendant) (pathNumber : nat)
    : Completion (option Descendant) :=
  match linkNode with
  | Some (Element _ children _) => Normal (children !! pathNumber)
  | Some (Text _ _) => Throw TypeError
  | None => Throw TypeError
  end.

Fixpoint descend (linkNode : option Descendant) (rest : Path)
    : Completion (option Descendant) :=
  match rest with
  | [] => Normal linkNode
  | pathNumber :: rest' =>
      match childAt linkNode pathNumber with
      | Normal child => descend child rest'
      | Throw e => Throw e
      end
  end.

(** Lines 50-53: the node a non-empty path leads to. *)
Definition resolve (draftState : list Descendant) (p : Path)
    : Completion (option Descendant) :=
  match p with
  | [] => Normal None
  | first :: rest => descend (draftState !! first) rest
  end.

(** Line 69, [linkNodeChild.text = newTitle]. *)
Definition setText (newTitle : string) (linkNodeChild : Descendant)
    : Descendant :=
  match linkNodeChild with
  | Text _ marks => Text newTitle marks
  | Element d children _ => Element d children (Some newTitle)
  end.

(** Lines 64-71 on a node that passed the test of lines 56-61. *)
Definition retitle (newTitle : string) (linkNode : Descendant) : Descendant :=
  match linkNode with
  | Element (NoteLink target _ isTextTitle) children t =>
      Element (NoteLink target newTitle isTextTitle)
              (if isTextTitle then map (setText newTitle) children
               else children) t
  | _ => linkNode
  end.

(** What immer's [produce] returns when the recipe changed the draft node
    at [p]: the tree in which that node, and so each of its ancestors, is
    replaced, and everything else is kept. *)
Fixpoint updateAt (f : Descendant -> Descendant) (p : Path)
    (nodes : list Descendant) : list Descendant :=
  match p with
  | [] => nodes
  | index :: rest =>
      alter (fun node =>
               match rest with
               | [] => f node
               | _ :: _ =>
                   match node with
                   | Element d children t =>
                       Element d (updateAt f rest children) t
                   | Text _ _ => node
                   end
               end) index nodes
  end.

(** Lines 42-72: [produce] with the recipe of one match. *)
Definition produce (base : list Descendant) (m : Match) (newTitle : string)
    : Completion (list Descendant) :=
  match path m with
  | [] => Normal base
  | _ :: _ =>
      match resolve base (path m) with
      | Throw e => Throw e
      | Normal linkNode =>
          match linkNode with
          | Some node =>
              if negb (Element.isElement node) || negb (Element.isNoteLink node)
              then Normal base
              else Normal (updateAt (retitle newTitle) (path m) base)
          | None => Normal base
          end
      end
  end.

(** Lines 40-73: the matches of one backlink, one after the other. *)
Fixpoint patchContent (newBacklinkContent : list Descendant)
    (ms : list Match) (newTitle : string) : Completion (list Descendant) :=
  match ms with
  | [] => Normal newBacklinkContent
  | m :: rest =>
      match produce newBacklinkContent m newTitle with
      | Normal next => patchContent next rest newTitle
      | Throw e => Throw e
      end
  end.

(** Lines 31-80: the loop over the backlinks. *)
Fixpoint forBacklinks (user : User) (notes : list Note) (newTitle : string)
    (backlinks : list Backlink) (upsertData : list Note) : M (list Note) :=
  match backlinks with
  | [] => ret upsertData
  | backlink :: rest =>
      match find (fun note => bool_decide (note_id note = id backlink)) notes
      with
      | None =>
          console_error
            ("No backlink content found for note " +:+ id backlink) ;;;
          forBacklinks user notes newTitle rest upsertData
      | Some note =>
          newBacklinkContent <-
            lift (patchContent (note_content note) (matches backlink)
                    newTitle) ;;
          forBacklinks user notes newTitle rest
            (upsertData ++
               [mkNote (id backlink) (title backlink) (user_id user)
                  newBacklinkContent])
      end
  end.

Definition updateBacklinks (user : option User) (notes : list Note)
    (backlinks : list Backlink) (newTitle : string) : M unit :=
  match user with
  | None => ret tt
  | Some u =>
      upsertData <- forBacklinks u notes newTitle backlinks [] ;;
      upsert upsertData
  end.

(** The hook: the backlinks of [noteId], and the callback closed over
    them. *)
Definition useBacklinks (user : option User) (notes : list Note)
    (noteId : string) : list Backlink * (string -> M unit) :=
  let backlinks := getBacklinks notes noteId in
  (backlinks, updateBacklinks user notes backlinks).

Definition emptyWorld : World := mkWorld [] [].

(** ** Well-formed documents *)

(** A node as Slate's data model has it: no element carries a [text]
    property, so that every node is a text node or an element and never
    both. *)
Fixpoint wellFormed (node : Descendant) : bool :=
  match node with
  | Text _ _ => true
  | Element _ children t =>
      bool_decide (t = None) && forallb wellFormed children
  end.

(** ** Auxiliary definitions *)

(** The children loop of [getBacklinkMatchesHelper], as a function of its
    own. *)
Fixpoint childMatches (parent : Descendant) (noteId : string) (p : Path)
    (cs : list Descendant) (index : nat) : list Match :=
  match cs with
  | [] => []
  | child :: rest =>
      (if Element.isElement child then
         (if linksTo noteId child
          then [mkMatch (Node.string parent) (p ++ [index])]
          else [])
         ++ getBacklinkMatchesHelper child noteId (p ++ [index])
       else [])
      ++ childMatches parent noteId p rest (S index)
  end.

(** Trees that differ by titles only. *)
Section RetitledDef.
Variable newTitle : string.

Definition retitledData (d d' : ElementData) : Prop :=
  match d, d' with
  | NoteLink target linkTitle flag, NoteLink target' linkTitle' flag' =>
      target' = target /\ flag' = flag /\
      (linkTitle' = linkTitle \/ linkTitle' = newTitle)
  | OtherElement tag, OtherElement tag' => tag' = tag
  | _, _ => False
  end.

(** [retitled a b]: [b] is [a] where some link titles and some [text]
    properties were set to [newTitle]; the shape of the tree, the
    targets and the flags of the links are the same. *)
Inductive retitled : Descendant -> Descendant -> Prop :=
  | retitled_Text s s' marks :
      s' = s \/ s' = newTitle ->
      retitled (Text s marks) (Text s' marks)
  | retitled_Element d d' cs cs' t t' :
      retitledData d d' ->
      Forall2 retitled cs cs' ->
      t' = t \/ t' = Some newTitle ->
      retitled (Element d cs t) (Element d' cs' t').
End RetitledDef.

(** The row that the loop pushes for the backlink [b]: the document of the
    collection with the identifier of [b] gives the title, the user gives
    the owner, and the content is that of the document with every match of
    [b] applied, where every matched link now has the new title. *)
Definition rowFor (user : User) (notes : list Note) (noteId newTitle : string)
    (b : Backlink) (row : Note) : Prop :=
  note_id row = id b /\
  note_user_id row = user_id user /\
  exists note,
    In note notes /\ note_id note = id b /\
    note_title row = note_title note /\
    patchContent (note_content note) (matches b) newTitle =
      Normal (note_content row) /\
    forall m, In m (matches b) ->
      exists flag cs t,
        resolve (note_content row) (path m) =
          Normal (Some (Element (NoteLink noteId newTitle flag) cs t)).

(** ** Definitions for the properties of the batch *)

(** Line 32: the collection has a note with the identifier of the
    backlink. *)
Definition hasNote (notes : list Note) (b : Backlink) : bool :=
  match find (fun note => bool_decide (note_id note = id b)) notes with
  | Some _ => true
  | None => false
  end.

(** The message of line 36. *)
Definition missingContentMessage (b : Backlink) : string :=
  "No backlink content found for note " +:+ id b.

(** The row the loop pushes for a backlink that has its note: lines
    74-79. *)
Definition pushedRow (user : User) (notes : list Note) (newTitle : string)
    (b : Backlink) (row : Note) : Prop :=
  note_id row = id b /\ note_title row = title b /\
  note_user_id row = user_id user /\
  exists note,
    find (fun n => bool_decide (note_id n = id b)) notes = Some note /\
    patchContent (note_content note) (matches b) newTitle
      = Normal (note_content row).

(** Document order on paths: a path comes before its extensions, and
    before the paths that turn to a later child. *)
Inductive pathLt : Path -> Path -> Prop :=
  | pathLt_nil i q : pathLt [] (i :: q)
  | pathLt_lt i j p q : i < j -> pathLt (i :: p) (j :: q)
  | pathLt_eq i p q : pathLt p q -> pathLt (i :: p) (i :: q).

(** ** Example documents *)

Definition linkB : Descendant :=
  Element (NoteLink "b" "B" true) [Text "B" []] None.

Definition documentA : Note :=
  mkNote "a" "Old" "owner"
    [Element (OtherElement "paragraph") [linkB] None].

Definition documentB : Note :=
  mkNote "b" "B" "owner"
    [Element (OtherElement "paragraph") [Text "" []] None].

Definition paragraphX : list Descendant :=
  [Element (OtherElement "paragraph") [Text "x" []] None].

Definition linkBigNote : Descendant :=
  Element (NoteLink "b" "Big Note" true)
    [Text "Big " ["bold"]; Text "Note" []] None.

Definition documentBold : Note :=
  mkNote "a" "Old" "owner"
    [Element (OtherElement "paragraph") [linkBigNote] None].

Definition linkCode : Descendant :=
  Element (NoteLink "b" "B" true)
    [Element (OtherElement "code") [Text "B" []] None] None.

Definition documentCode : Note :=
  mkNote "a" "Old" "owner"
    [Element (OtherElement "paragraph") [linkCode] None].

(** * Properties of the finder *)

Lemma getBacklinkMatchesHelper_unfold node noteId p :
  getBacklinkMatchesHelper node noteId p =
  if Text.isText node then []
  else childMatches node noteId p
         (match node with Element _ cs _ => cs | Text _ _ => [] end) 0.
Proof.
  destruct node as [s marks | d children t]; [reflexivity |].
  cbn [getBacklinkMatchesHelper].
  destruct (Text.isText (Element d children t)); [reflexivity |].
  generalize 0. generalize children at 2 4 as cs.
  induction cs as [| child rest IH]; intros index; [reflexivity |].
  cbn [childMatches]. rewrite <- IH. reflexivity.
Qed.

Lemma in_childMatches parent noteId p cs index m :
  In m (childMatches parent noteId p cs index) <->
  exists k child,
    cs !! k = Some child /\ Element.isElement child = true /\
    ((linksTo noteId child = true /\
      m = mkMatch (Node.string parent) (p ++ [index + k])) \/
     In m (getBacklinkMatchesHelper child noteId (p ++ [index + k]))).
Proof.
  revert index. induction cs as [| child rest IH]; intros index.
  - cbn. split; [tauto |]. intros (k & c & Hk & _). discriminate.
  - cbn [childMatches]. rewrite in_app_iff, IH. split.
    + intros [Hhere | (k & c & Hk & He & Hm)].
      * exists 0, child. rewrite Nat.add_0_r.
        destruct (Element.isElement child); [| contradiction].
        split; [reflexivity |]. split; [reflexivity |].
        apply in_app_iff in Hhere as [Hl | Hr]; [left | right; exact Hr].
        destruct (linksTo noteId child); [| contradiction].
        destruct Hl as [<- | []]. split; reflexivity.
      * exists (S k), c. rewrite <- Nat.add_succ_comm. auto.
    + intros (k & c & Hk & He & Hm). destruct k as [| k].
      * left. cbn in Hk. injection Hk as ->. rewrite He, Nat.add_0_r in *.
        apply in_app_iff.
        destruct Hm as [[Hl ->] | Hr]; [left | right; exact Hr].
        rewrite Hl. left. reflexivity.
      * right. exists k, c. rewrite Nat.add_succ_comm. auto.
Qed.

Lemma in_getBacklinkMatchesFrom nodes noteId index m :
  In m (getBacklinkMatchesFrom nodes noteId index) <->
  exists k node,
    nodes !! k = Some node /\
    In m (getBacklinkMatchesHelper node noteId [index + k]).
Proof.
  revert index. induction nodes as [| node rest IH]; intros index.
  - cbn. split; [tauto |]. intros (k & c & Hk & _). discriminate.
  - cbn [getBacklinkMatchesFrom]. rewrite in_app_iff, IH. split.
    + intros [Hhere | (k & c & Hk & Hm)].
      * exists 0, node. rewrite Nat.add_0_r. auto.
      * exists (S k), c. rewrite <- Nat.add_succ_comm. auto.
    + intros (k & c & Hk & Hm). destruct k as [| k].
      * left. cbn in Hk. injection Hk as ->.
        rewrite Nat.add_0_r in Hm. exact Hm.
      * right. exists k, c. rewrite Nat.add_succ_comm. auto.
Qed.

Lemma descend_app linkNode p q :
  descend linkNode (p ++ q) =
  match descend linkNode p with
  | Normal node => descend node q
  | Throw e => Throw e
  end.
Proof.
  revert linkNode. induction p as [| i p IH]; intros linkNode; [reflexivity |].
  cbn [descend app]. destruct (childAt linkNode i); [apply IH | reflexivity].
Qed.

(** Every match that the helper records, visiting [node] at [p], is a
    link to [noteId] found as child [i] of some [parent] below [node]; the
    context is the string of that parent. *)
Lemma getBacklinkMatchesHelper_sound node noteId :
  forall p m,
    In m (getBacklinkMatchesHelper node noteId p) ->
    exists rel i parent child,
      path m = p ++ rel ++ [i] /\
      descend (Some node) rel = Normal (Some parent) /\
      context m = Node.string parent /\
      childAt (Some parent) i = Normal (Some child) /\
      linksTo noteId child = true.
Proof.
  induction node as [s marks | d children t IH] using Descendant_nested_ind;
    intros p m Hin.
  - contradiction.
  - rewrite getBacklinkMatchesHelper_unfold in Hin.
    destruct (Text.isText (Element d children t)); [contradiction |].
    apply in_childMatches in Hin as (k & child & Hk & He & Hm).
    cbn [Nat.add] in Hm. destruct Hm as [[Hl ->] | Hrec].
    + exists [], k, (Element d children t), child. cbn.
      rewrite Hk. auto.
    + rewrite Forall_lookup in IH. specialize (IH k child Hk _ _ Hrec).
      destruct IH as (rel & i & parent & c & Hp & Hd & Hc & Hi & Hl).
      exists (k :: rel), i, parent, c. cbn [descend childAt]. rewrite Hk.
      rewrite Hp, <- app_assoc. auto.
Qed.

Lemma wellFormed_child d children t k child :
  wellFormed (Element d children t) = true ->
  children !! k = Some child ->
  t = None /\ wellFormed child = true.
Proof.
  cbn. intros [Ht Hall]%andb_prop Hk. apply bool_decide_eq_true in Ht.
  split; [exact Ht |].
  rewrite forallb_forall in Hall. apply Hall.
  apply list_elem_of_In. eapply list_elem_of_lookup_2. exact Hk.
Qed.

(** Conversely, in a well-formed tree every link to [noteId] that has some
    text and sits below [node] is recorded. *)
Lemma getBacklinkMatchesHelper_complete noteId rel :
  forall node p i parent child,
    wellFormed node = true ->
    descend (Some node) rel = Normal (Some parent) ->
    childAt (Some parent) i = Normal (Some child) ->
    linksTo noteId child = true ->
    In (mkMatch (Node.string parent) (p ++ rel ++ [i]))
       (getBacklinkMatchesHelper node noteId p).
Proof.
  induction rel as [| k rel IH]; intros node p i parent child Hwf Hd Hi Hl.
  - cbn in Hd. injection Hd as <-.
    destruct node as [s marks | d children t]; [discriminate |].
    cbn in Hi. injection Hi as Hi.
    destruct (wellFormed_child _ _ _ _ _ Hwf Hi) as [-> _].
    rewrite getBacklinkMatchesHelper_unfold. cbn [Text.isText].
    rewrite bool_decide_eq_false_2 by (intros [? ?]; discriminate).
    apply in_childMatches. exists i, child.
    split; [exact Hi |]. split; [| left; auto].
    destruct child; [discriminate | reflexivity].
  - destruct node as [s marks | d children t]; [discriminate |].
    cbn [descend childAt] in Hd.
    destruct (children !! k) as [next |] eqn:Hk;
      [| destruct rel; discriminate].
    destruct (wellFormed_child _ _ _ _ _ Hwf Hk) as [-> Hwf'].
    rewrite getBacklinkMatchesHelper_unfold. cbn [Text.isText].
    rewrite bool_decide_eq_false_2 by (intros [? ?]; discriminate).
    apply in_childMatches. exists k, next. split; [exact Hk |].
    assert (Element.isElement next = true) as He.
    { destruct next; [| reflexivity]. destruct rel; cbn in Hd; [| discriminate].
      injection Hd as <-. discriminate. }
    split; [exact He |]. right. cbn [Nat.add].
    specialize (IH next (p ++ [k]) i parent child Hwf' Hd Hi Hl).
    rewrite <- app_assoc in IH. exact IH.
Qed.

Lemma resolve_snoc content p i :
  p <> [] ->
  resolve content (p ++ [i]) =
  match resolve content p with
  | Normal parent => childAt parent i
  | Throw e => Throw e
  end.
Proof.
  destruct p as [| k rel]; [congruence |]. intros _.
  cbn [resolve app]. rewrite descend_app. cbn [descend].
  destruct (descend (content !! k) rel) as [parent | e]; [| reflexivity].
  destruct (childAt parent i); reflexivity.
Qed.

(** A path of length two or more that resolves to a node goes through the
    parent of that node. *)
Lemma resolve_parent content p node :
  2 <= length p ->
  resolve content p = Normal (Some node) ->
  exists parentPath i parent,
    p = parentPath ++ [i] /\ parentPath <> [] /\
    resolve content parentPath = Normal (Some parent) /\
    childAt (Some parent) i = Normal (Some node).
Proof.
  intros Hlen Hres.
  destruct (exists_last (l := p)) as (pp & i & ->).
  { intros ->. cbn in Hlen. lia. }
  assert (pp <> []) as Hne.
  { intros ->. cbn in Hlen. lia. }
  rewrite resolve_snoc in Hres by exact Hne.
  destruct (resolve content pp) as [[parent |] | e] eqn:Hpp; cbn in Hres;
    try discriminate.
  exists pp, i, parent. auto.
Qed.

Lemma getBacklinkMatches_sound content noteId m :
  In m (getBacklinkMatches content noteId) ->
  exists parentPath i parent link,
    path m = parentPath ++ [i] /\ parentPath <> [] /\
    resolve content parentPath = Normal (Some parent) /\
    context m = Node.string parent /\
    childAt (Some parent) i = Normal (Some link) /\
    linksTo noteId link = true.
Proof.
  intros (k & node & Hk & Hin)%in_getBacklinkMatchesFrom.
  apply getBacklinkMatchesHelper_sound in Hin
    as (rel & i & parent & link & Hp & Hd & Hc & Hi & Hl).
  exists (k :: rel), i, parent, link. cbn [resolve Nat.add] in *.
  rewrite Hk. split; [exact Hp |]. split; [discriminate |]. auto.
Qed.

Lemma getBacklinkMatches_complete content noteId parentPath i parent link :
  forallb wellFormed content = true ->
  resolve content parentPath = Normal (Some parent) ->
  childAt (Some parent) i = Normal (Some link) ->
  linksTo noteId link = true ->
  In (mkMatch (Node.string parent) (parentPath ++ [i]))
     (getBacklinkMatches content noteId).
Proof.
  intros Hwf Hres Hi Hl.
  destruct parentPath as [| k rel]; [discriminate |]. cbn [resolve] in Hres.
  destruct (content !! k) as [node |] eqn:Hk;
    [| destruct rel; discriminate].
  apply in_getBacklinkMatchesFrom. exists k, node. split; [exact Hk |].
  apply (getBacklinkMatchesHelper_complete noteId rel node [k] i parent link);
    auto.
  rewrite forallb_forall in Hwf. apply Hwf.
  apply list_elem_of_In. eapply list_elem_of_lookup_2. exact Hk.
Qed.

Lemma in_getBacklinks notes noteId b :
  In b (getBacklinks notes noteId) <->
  exists note,
    In note notes /\
    getBacklinkMatches (note_content note) noteId <> [] /\
    b = mkBacklink (note_id note) (note_title note)
          (getBacklinkMatches (note_content note) noteId).
Proof.
  induction notes as [| note rest IH].
  - cbn. split; [tauto | intros (? & [] & _)].
  - cbn [getBacklinks]. rewrite in_app_iff, IH. split.
    + intros [Hhere | (n & Hn & Hm)].
      * exists note. case_bool_decide as Hlen; [| contradiction].
        destruct Hhere as [<- | []]. split; [left; reflexivity |].
        split; [| reflexivity]. intros Heq. rewrite Heq in Hlen.
        cbn in Hlen. lia.
      * exists n. split; [right |]; tauto.
    + intros (n & [-> | Hn] & Hne & ->).
      * left. rewrite bool_decide_eq_true_2; [left; reflexivity |].
        destruct (getBacklinkMatches _ _); [congruence | cbn; lia].
      * right. exists n. auto.
Qed.

(** What a match of the finder is: the path of a node, the parent,
    extended by the index of one of its children, a link to the target
    with some text; the context is the string of the parent. *)
Lemma match_resolves content noteId m :
  In m (getBacklinkMatches content noteId) ->
  exists parentPath index parent link,
    path m = parentPath ++ [index] /\
    resolve content parentPath = Normal (Some parent) /\
    childAt (Some parent) index = Normal (Some link) /\
    resolve content (path m) = Normal (Some link) /\
    linksTo noteId link = true /\
    context m = Node.string parent.
Proof.
  intros (pp & i & parent & link & Hp & Hne & Hres & Hc & Hi & Hl)
    %getBacklinkMatches_sound.
  exists pp, i, parent, link. repeat split; auto.
  rewrite Hp, resolve_snoc, Hres by exact Hne. exact Hi.
Qed.

(** C7: every match the finder records has the path of a node, the parent,
    extended by the index of one of its children, a link to the target with
    some text; the context is the string of the parent. *)
Theorem C7_match_context_and_path content noteId m :
  In m (getBacklinkMatches content noteId) ->
  exists parentPath index parent link,
    path m = parentPath ++ [index] /\
    resolve content parentPath = Normal (Some parent) /\
    childAt (Some parent) index = Normal (Some link) /\
    resolve content (path m) = Normal (Some link) /\
    linksTo noteId link = true /\
    context m = Node.string parent.
Proof. apply match_resolves. Qed.

Lemma C7_witness :
  exists parentPath index parent link,
    [0; 0] = parentPath ++ [index] /\
    resolve (note_content documentA) parentPath = Normal (Some parent) /\
    childAt (Some parent) index = Normal (Some link) /\
    resolve (note_content documentA) [0; 0] = Normal (Some link) /\
    linksTo "b" link = true /\
    "B" = Node.string parent.
Proof.
  apply (C7_match_context_and_path (note_content documentA) "b"
           (mkMatch "B" [0; 0])).
  vm_compute. left. reflexivity.
Defined.

Lemma match_path_length content noteId m :
  In m (getBacklinkMatches content noteId) -> 2 <= length (path m).
Proof.
  intros (pp & i & parent & link & Hp & Hne & _)%getBacklinkMatches_sound.
  rewrite Hp, length_app. destruct pp; [congruence | cbn; lia].
Qed.

(** C5, as the code has it: the path of a match is never empty, and the
    shortest path a match can have is of length 2 (the index of a
    top-level node and the index of the link among its children). *)
Theorem C5_match_path_length_at_least_two :
  (forall content noteId m,
     In m (getBacklinkMatches content noteId) ->
     path m <> [] /\ 2 <= length (path m)) /\
  (exists content noteId m,
     In m (getBacklinkMatches content noteId) /\ length (path m) = 2).
Proof.
  split.
  - intros content noteId m Hin. apply match_path_length in Hin.
    split; [| exact Hin]. intros Heq. rewrite Heq in Hin. cbn in Hin. lia.
  - exists (note_content documentA), "b", (mkMatch "B" [0; 0]).
    split; [vm_compute; left |]; reflexivity.
Qed.

Lemma C5_witness :
  path (mkMatch "B" [0; 0]) <> [] /\ 2 <= length (path (mkMatch "B" [0; 0])).
Proof.
  apply (proj1 C5_match_path_length_at_least_two
           (note_content documentA) "b").
  vm_compute. left. reflexivity.
Defined.

(** C5 as stated fails: no input gives a match whose path is a single
    index. *)
Lemma C5_no_single_index_path :
  ~ exists content noteId m,
      In m (getBacklinkMatches content noteId) /\ length (path m) = 1.
Proof.
  intros (content & noteId & m & Hin & Hlen).
  apply match_path_length in Hin. lia.
Qed.

Lemma truthy_nonempty s : truthy s = true <-> s <> "".
Proof. destruct s; cbn; split; congruence. Qed.

Lemma linksTo_NoteLink noteId linkTitle flag cs t :
  Node.string (Element (NoteLink noteId linkTitle flag) cs t) <> "" ->
  linksTo noteId (Element (NoteLink noteId linkTitle flag) cs t) = true.
Proof.
  intros Hs. unfold linksTo. rewrite bool_decide_eq_true_2 by reflexivity.
  apply truthy_nonempty, Hs.
Qed.

(** Every link to [noteId] with some text that sits below the top level of
    a well-formed document gives a match with its path, in the backlink of
    that document. *)
Lemma getBacklinks_complete notes D noteId p link :
  In D notes ->
  forallb wellFormed (note_content D) = true ->
  2 <= length p ->
  resolve (note_content D) p = Normal (Some link) ->
  linksTo noteId link = true ->
  exists b m,
    In b (getBacklinks notes noteId) /\
    id b = note_id D /\ title b = note_title D /\
    In m (matches b) /\ path m = p.
Proof.
  intros HD Hwf Hlen Hres Hl.
  destruct (resolve_parent _ _ _ Hlen Hres)
    as (pp & i & parent & -> & Hne & Hpp & Hi).
  pose proof (getBacklinkMatches_complete _ noteId _ _ _ _ Hwf Hpp Hi Hl)
    as Hin.
  eexists (mkBacklink _ _ _), _. split.
  - apply in_getBacklinks. exists D. split; [exact HD |].
    split; [| reflexivity]. intros Heq. rewrite Heq in Hin. contradiction.
  - cbn. split; [reflexivity |]. split; [reflexivity |].
    split; [exact Hin | reflexivity].
Qed.

(** C1, as the code has it: in a well-formed document of the collection,
    every link to the target that has some text and is the child of an
    element (a path of two indices or more) gives a match whose path
    resolves to it, in a backlink for that document; and when the result
    has no backlink for the document, every such link to the target has an
    empty string. Links in the top-level sequence are not looked at. *)
Theorem C1_links_below_top_level_are_found notes D noteId :
  In D notes ->
  forallb wellFormed (note_content D) = true ->
  (forall p linkTitle flag cs t,
     2 <= length p ->
     resolve (note_content D) p =
       Normal (Some (Element (NoteLink noteId linkTitle flag) cs t)) ->
     Node.string (Element (NoteLink noteId linkTitle flag) cs t) <> "" ->
     exists b m,
       In b (getBacklinks notes noteId) /\
       id b = note_id D /\ title b = note_title D /\
       In m (matches b) /\ path m = p /\
       resolve (note_content D) (path m) =
         Normal (Some (Element (NoteLink noteId linkTitle flag) cs t))) /\
  ((forall b, In b (getBacklinks notes noteId) -> id b <> note_id D) ->
   forall p linkTitle flag cs t,
     2 <= length p ->
     resolve (note_content D) p =
       Normal (Some (Element (NoteLink noteId linkTitle flag) cs t)) ->
     Node.string (Element (NoteLink noteId linkTitle flag) cs t) = "").
Proof.
  intros HD Hwf.
  assert (forall p linkTitle flag cs t,
     2 <= length p ->
     resolve (note_content D) p =
       Normal (Some (Element (NoteLink noteId linkTitle flag) cs t)) ->
     Node.string (Element (NoteLink noteId linkTitle flag) cs t) <> "" ->
     exists b m,
       In b (getBacklinks notes noteId) /\
       id b = note_id D /\ title b = note_title D /\
       In m (matches b) /\ path m = p /\
       resolve (note_content D) (path m) =
         Normal (Some (Element (NoteLink noteId linkTitle flag) cs t)))
    as Hcomplete.
  { intros p linkTitle flag cs t Hlen Hres Hs.
    destruct (getBacklinks_complete notes D noteId p _ HD Hwf Hlen Hres
                (linksTo_NoteLink _ _ _ _ _ Hs))
      as (b & m & Hb & Hid & Htitle & Hm & Hp).
    exists b, m. rewrite Hp. auto 10. }
  split; [exact Hcomplete |].
  intros Habsent p linkTitle flag cs t Hlen Hres.
  destruct (decide (Node.string (Element (NoteLink noteId linkTitle flag) cs t)
                    = "")) as [Hempty | Hs]; [exact Hempty |].
  destruct (Hcomplete p linkTitle flag cs t Hlen Hres Hs)
    as (b & _ & Hb & Hid & _).
  destruct (Habsent b Hb Hid).
Qed.

Lemma C1_witness :
  exists b m,
    In b (getBacklinks [documentA; documentB] "b") /\
    id b = "a" /\ title b = "Old" /\
    In m (matches b) /\ path m = [0; 0] /\
    resolve (note_content documentA) (path m) = Normal (Some linkB).
Proof.
  apply (proj1 (C1_links_below_top_level_are_found
                  [documentA; documentB] documentA "b"
                  (or_introl eq_refl) eq_refl)
           [0; 0] "B" true [Text "B" []] None).
  - cbn. lia.
  - reflexivity.
  - cbn. discriminate.
Defined.

(** C1 as stated fails for a link in the top-level sequence: the document
    holds a link to the target with some text, and the finder returns
    nothing for it. *)
Lemma C1_top_level_link_is_missed :
  In (mkNote "a" "Old" "owner" [linkB]) [mkNote "a" "Old" "owner" [linkB]] /\
  resolve (note_content (mkNote "a" "Old" "owner" [linkB])) [0] =
    Normal (Some linkB) /\
  linkB = Element (NoteLink "b" "B" true) [Text "B" []] None /\
  Node.string linkB <> "" /\
  getBacklinks [mkNote "a" "Old" "owner" [linkB]] "b" = [].
Proof.
  split; [left; reflexivity |]. split; [reflexivity |].
  split; [reflexivity |]. split; [cbn; discriminate | reflexivity].
Qed.

(** C6: the scenario of document A, a paragraph holding a link to B, and
    document B. The finder returns one backlink, for A, with one match of
    path [0,0] and context B; the rewriter, run for the new title Bee,
    hands over one row for A, with its title unchanged, where the link has
    the title Bee and its text child the text Bee. *)
Theorem C6_concrete_scenario (user : User) :
  getBacklinks [documentA; documentB] "b" =
    [mkBacklink "a" "Old" [mkMatch "B" [0; 0]]] /\
  snd (useBacklinks (Some user) [documentA; documentB] "b") "Bee" emptyWorld =
    (Normal tt,
     mkWorld []
       [[mkNote "a" "Old" (user_id user)
           [Element (OtherElement "paragraph")
              [Element (NoteLink "b" "Bee" true) [Text "Bee" []] None]
              None]]]).
Proof. split; reflexivity. Qed.

(** * Properties of the rewriter *)

(** C10: without a user the callback returns at once; nothing is written
    on the console, nothing is handed to the table, whatever the notes,
    the backlinks and the new title are. *)
Theorem C10_no_user_no_upsert notes backlinks noteId newTitle w :
  updateBacklinks None notes backlinks newTitle w = (Normal tt, w) /\
  snd (useBacklinks None notes noteId) newTitle w = (Normal tt, w).
Proof. split; reflexivity. Qed.

(** ** Where a patch is a no-op, and where it throws *)

Lemma produce_empty_path base m newTitle :
  path m = [] -> produce base m newTitle = Normal base.
Proof. unfold produce. intros ->. reflexivity. Qed.

(** The path leads to nothing, to a text node or to an element that is not
    a note link: the content is returned as it is. *)
Lemma produce_not_a_link base m newTitle linkNode :
  resolve base (path m) = Normal linkNode ->
  (forall node, linkNode = Some node -> Element.isNoteLink node = false) ->
  produce base m newTitle = Normal base.
Proof.
  unfold produce. intros -> Hnot. destruct (path m); [reflexivity |].
  destruct linkNode as [node |]; [| reflexivity].
  rewrite (Hnot node eq_refl), orb_true_r. reflexivity.
Qed.

(** A step before the last one that lands on a text node, or outside the
    array, makes the recipe throw. *)
Lemma produce_throws_on_the_way base m newTitle p i linkNode :
  path m = p ++ [i] -> p <> [] ->
  resolve base p = Normal linkNode ->
  (forall node, linkNode = Some node -> Element.isElement node = false) ->
  produce base m newTitle = Throw TypeError.
Proof.
  unfold produce. intros -> Hne Hres Hnot.
  rewrite resolve_snoc, Hres by exact Hne.
  destruct p as [| k rel]; [congruence |]. cbn [app].
  destruct linkNode as [[s marks | d cs t] |]; try reflexivity.
  specialize (Hnot _ eq_refl). discriminate.
Qed.

Lemma patchContent_throws base m rest newTitle e :
  produce base m newTitle = Throw e ->
  patchContent base (m :: rest) newTitle = Throw e.
Proof. cbn. intros ->. reflexivity. Qed.


(** ** The text of a patched link *)

Lemma string_setText newTitle child :
  Node.string (setText newTitle child) = newTitle.
Proof. destruct child; reflexivity. Qed.

(** The string of a patched link whose text mirrors the title: the new
    title, once for each child. *)
Lemma string_retitle newTitle target linkTitle cs :
  Node.string
    (retitle newTitle (Element (NoteLink target linkTitle true) cs None)) =
  String.concat "" (map (fun _ => newTitle) cs).
Proof.
  cbn. rewrite map_map. f_equal. apply map_ext. intros child.
  apply string_setText.
Qed.

(** C3 fails on the code: a link that mirrors the title and has two text
    children (part of its text is bold) gets the new title in each child,
    so that its string is the new title twice. *)
Theorem C3_two_text_children_repeat_title (user : User) :
  getBacklinks [documentBold] "b" =
    [mkBacklink "a" "Old" [mkMatch "Big Note" [0; 0]]] /\
  Node.string (retitle "Bee" linkBigNote) = "BeeBee" /\
  snd (useBacklinks (Some user) [documentBold] "b") "Bee" emptyWorld =
    (Normal tt,
     mkWorld []
       [[mkNote "a" "Old" (user_id user)
           [Element (OtherElement "paragraph")
              [Element (NoteLink "b" "Bee" true)
                 [Text "Bee" ["bold"]; Text "Bee" []] None]
              None]]]).
Proof. repeat split; reflexivity. Qed.

(** C4 fails on the code: a child of the link that is an element gets a
    [text] property set to the new title, and from then on passes for a
    text node as well. *)
Theorem C4_element_child_gets_text (user : User) :
  getBacklinks [documentCode] "b" =
    [mkBacklink "a" "Old" [mkMatch "B" [0; 0]]] /\
  snd (useBacklinks (Some user) [documentCode] "b") "Bee" emptyWorld =
    (Normal tt,
     mkWorld []
       [[mkNote "a" "Old" (user_id user)
           [Element (OtherElement "paragraph")
              [Element (NoteLink "b" "Bee" true)
                 [Element (OtherElement "code") [Text "B" []] (Some "Bee")]
                 None]
              None]]]) /\
  Text.isText (Element (OtherElement "code") [Text "B" []] None) = false /\
  Text.isText (setText "Bee" (Element (OtherElement "code") [Text "B" []] None))
    = true.
Proof. repeat split; reflexivity. Qed.

(** ** What a patch can change *)

Lemma resolve_one content i : resolve content [i] = Normal (content !! i).
Proof. reflexivity. Qed.

Lemma resolve_cons content i j rest :
  resolve content (i :: j :: rest) =
  match content !! i with
  | Some (Element _ children _) => resolve children (j :: rest)
  | _ => Throw TypeError
  end.
Proof. cbn. destruct (content !! i) as [[|] |]; reflexivity. Qed.

Lemma updateAt_one f i nodes : updateAt f [i] nodes = alter f i nodes.
Proof. reflexivity. Qed.

Lemma updateAt_cons f i j rest nodes :
  updateAt f (i :: j :: rest) nodes =
  alter (fun node =>
           match node with
           | Element d children t =>
               Element d (updateAt f (j :: rest) children) t
           | Text _ _ => node
           end) i nodes.
Proof. reflexivity. Qed.

(** [produce], by what the path resolves to. *)
Lemma produce_spec base m newTitle :
  produce base m newTitle =
  match resolve base (path m) with
  | Throw e => Throw e
  | Normal None => Normal base
  | Normal (Some node) =>
      if Element.isNoteLink node
      then Normal (updateAt (retitle newTitle) (path m) base)
      else Normal base
  end.
Proof.
  unfold produce. destruct (path m) as [| i rest] eqn:Hp; [reflexivity |].
  destruct (resolve base (i :: rest)) as [[[s marks | [] cs t] |] | e];
    reflexivity.
Qed.

(** Path induction, two indices at a time as [resolve] goes. *)
Lemma path_ind2 (P : Path -> Prop) :
  P [] -> (forall i, P [i]) ->
  (forall i j rest, P (j :: rest) -> P (i :: j :: rest)) ->
  forall p, P p.
Proof.
  intros Hnil Hone Hcons. induction p as [| i [| j rest] IH]; auto.
Qed.

Lemma resolve_updateAt f p : forall content node,
  resolve content p = Normal (Some node) ->
  resolve (updateAt f p content) p = Normal (Some (f node)).
Proof.
  induction p as [| i | i j rest IH] using path_ind2; intros content node.
  - discriminate.
  - rewrite !resolve_one, updateAt_one, list_lookup_alter_eq.
    intros [= ->]. reflexivity.
  - rewrite !resolve_cons, updateAt_cons, list_lookup_alter_eq.
    destruct (content !! i) as [[s marks | d cs t] |]; try discriminate.
    cbn [fmap option_fmap option_map]. apply IH.
Qed.

Lemma updateAt_fixed f p : forall content node,
  resolve content p = Normal (Some node) ->
  f node = node ->
  updateAt f p content = content.
Proof.
  induction p as [| i | i j rest IH] using path_ind2;
    intros content node Hres Hf.
  - reflexivity.
  - rewrite resolve_one in Hres. injection Hres as Hi.
    rewrite updateAt_one. apply list_eq. intros k.
    destruct (decide (i = k)) as [<- |].
    + rewrite list_lookup_alter_eq, Hi. cbn. congruence.
    + rewrite list_lookup_alter_ne by assumption. reflexivity.
  - rewrite resolve_cons in Hres. rewrite updateAt_cons.
    apply list_eq. intros k. destruct (decide (i = k)) as [<- |].
    + rewrite list_lookup_alter_eq.
      destruct (content !! i) as [[s marks | d cs t] |]; try discriminate.
      cbn [fmap option_fmap option_map].
      rewrite (IH cs node Hres Hf). reflexivity.
    + rewrite list_lookup_alter_ne by assumption. reflexivity.
Qed.

Lemma updateAt_compose f g p : forall content,
  updateAt f p (updateAt g p content) = updateAt (f ∘ g) p content.
Proof.
  induction p as [| i | i j rest IH] using path_ind2; intros content.
  - reflexivity.
  - rewrite !updateAt_one. apply list_alter_alter_eq.
  - rewrite !updateAt_cons, list_alter_alter_eq.
    apply list_alter_ext; [| reflexivity].
    intros [s marks | d cs t] _; [reflexivity |]. cbn [compose].
    rewrite IH. reflexivity.
Qed.

Lemma updateAt_ext f g p : forall content,
  (forall node, f node = g node) ->
  updateAt f p content = updateAt g p content.
Proof.
  induction p as [| i | i j rest IH] using path_ind2; intros content Hfg.
  - reflexivity.
  - rewrite !updateAt_one. apply list_alter_ext; auto.
  - rewrite !updateAt_cons. apply list_alter_ext; [| reflexivity].
    intros [s marks | d cs t] _; [reflexivity |].
    rewrite (IH cs Hfg). reflexivity.
Qed.

Lemma setText_idem newTitle child :
  setText newTitle (setText newTitle child) = setText newTitle child.
Proof. destruct child; reflexivity. Qed.

Lemma retitle_idem newTitle node :
  retitle newTitle (retitle newTitle node) = retitle newTitle node.
Proof.
  destruct node as [s marks | [target linkTitle [] | tag] cs t];
    try reflexivity.
  cbn. rewrite map_map. f_equal. apply map_ext, setText_idem.
Qed.

Lemma isNoteLink_retitle newTitle node :
  Element.isNoteLink (retitle newTitle node) = Element.isNoteLink node.
Proof. destruct node as [s marks | [] cs t]; reflexivity. Qed.

(** A patch applied a second time changes nothing. *)
Lemma produce_idem base m newTitle next :
  produce base m newTitle = Normal next ->
  produce next m newTitle = Normal next.
Proof.
  rewrite !produce_spec.
  destruct (resolve base (path m)) as [[node |] | e] eqn:Hres;
    [| intros [= <-]; rewrite Hres; reflexivity | discriminate].
  destruct (Element.isNoteLink node) eqn:Hlink;
    intros [= <-]; [| rewrite Hres, Hlink; reflexivity].
  rewrite (resolve_updateAt _ _ _ _ Hres), isNoteLink_retitle, Hlink.
  rewrite updateAt_compose. f_equal. apply updateAt_ext. intros n.
  apply retitle_idem.
Qed.

(** ** Trees that differ by titles only *)

Lemma Forall2_trans_pointwise {A} (R : A -> A -> Prop) l1 :
  Forall (fun x => forall y z, R x y -> R y z -> R x z) l1 ->
  forall l2 l3, Forall2 R l1 l2 -> Forall2 R l2 l3 -> Forall2 R l1 l3.
Proof.
  induction 1 as [| x xs Hx Hxs IH]; intros l2 l3 H12 H23;
    inversion H12; subst; inversion H23; subst; constructor; eauto.
Qed.

Section Retitled.
Variable newTitle : string.

Lemma retitledData_refl d : retitledData newTitle d d.
Proof. destruct d; cbn; auto. Qed.

Lemma retitledData_trans d1 d2 d3 :
  retitledData newTitle d1 d2 -> retitledData newTitle d2 d3 ->
  retitledData newTitle d1 d3.
Proof.
  destruct d1, d2, d3; cbn; try tauto; try congruence.
  intros (-> & -> & H1) (-> & -> & H2).
  destruct H1 as [-> | ->], H2 as [-> | ->]; auto.
Qed.

Lemma retitled_refl node : retitled newTitle node node.
Proof.
  induction node as [s marks | d cs t IH] using Descendant_nested_ind.
  - constructor. auto.
  - constructor; [apply retitledData_refl | | auto].
    induction IH; constructor; auto.
Qed.

Lemma retitled_list_refl nodes : Forall2 (retitled newTitle) nodes nodes.
Proof. induction nodes; constructor; auto using retitled_refl. Qed.

Lemma retitled_trans a : forall b c,
  retitled newTitle a b -> retitled newTitle b c -> retitled newTitle a c.
Proof.
  induction a as [s marks | d cs t IH] using Descendant_nested_ind;
    intros b c Hab Hbc; inversion Hab; subst; inversion Hbc; subst.
  - constructor.
    repeat match goal with H : _ \/ _ |- _ => destruct H; subst end; auto.
  - constructor.
    + eapply retitledData_trans; eassumption.
    + eapply Forall2_trans_pointwise; eassumption.
    + repeat match goal with H : _ \/ _ |- _ => destruct H; subst end; auto.
Qed.

Lemma retitled_list_trans l1 l2 l3 :
  Forall2 (retitled newTitle) l1 l2 -> Forall2 (retitled newTitle) l2 l3 ->
  Forall2 (retitled newTitle) l1 l3.
Proof.
  intros H12. revert l3.
  induction H12; intros l3 H23; inversion H23; subst; constructor;
    eauto using retitled_trans.
Qed.

Lemma retitled_setText child : retitled newTitle child (setText newTitle child).
Proof.
  destruct child as [s marks | d cs t]; constructor;
    auto using retitledData_refl, retitled_list_refl.
Qed.

Lemma retitled_retitle node : retitled newTitle node (retitle newTitle node).
Proof.
  destruct node as [s marks | [target linkTitle flag | tag] cs t];
    try apply retitled_refl.
  constructor; [cbn; auto | | auto].
  destruct flag; [| apply retitled_list_refl].
  induction cs; constructor; auto using retitled_setText.
Qed.

Lemma retitled_updateAt f p :
  (forall node, retitled newTitle node (f node)) ->
  forall content, Forall2 (retitled newTitle) content (updateAt f p content).
Proof.
  intros Hf.
  induction p as [| i | i j rest IH] using path_ind2; intros content.
  - apply retitled_list_refl.
  - rewrite updateAt_one. apply Forall2_alter_r; [apply retitled_list_refl |].
    intros x y Hx Hy _. assert (x = y) as -> by congruence. apply Hf.
  - rewrite updateAt_cons.
    apply Forall2_alter_r; [apply retitled_list_refl |].
    intros x y Hx Hy _. assert (x = y) as -> by congruence.
    destruct y as [s marks | d cs t]; [apply retitled_refl |].
    constructor; auto using retitledData_refl.
Qed.

(** A patch only retitles. *)
Lemma produce_retitled base m next :
  produce base m newTitle = Normal next ->
  Forall2 (retitled newTitle) base next.
Proof.
  rewrite produce_spec.
  destruct (resolve base (path m)) as [[node |] | e];
    [| intros [= <-]; apply retitled_list_refl | discriminate].
  destruct (Element.isNoteLink node); intros [= <-];
    [| apply retitled_list_refl].
  apply retitled_updateAt, retitled_retitle.
Qed.

(** Resolution goes the same way in a retitled tree. *)
Lemma resolve_retitled p : forall content content' linkNode,
  Forall2 (retitled newTitle) content content' ->
  resolve content p = Normal linkNode ->
  exists linkNode',
    resolve content' p = Normal linkNode' /\
    option_Forall2 (retitled newTitle) linkNode linkNode'.
Proof.
  induction p as [| i | i j rest IH] using path_ind2;
    intros content content' linkNode Hrel.
  - intros [= <-]. exists None. split; [reflexivity | constructor].
  - rewrite !resolve_one. intros [= <-]. eexists. split; [reflexivity |].
    apply Forall2_lookup. exact Hrel.
  - rewrite !resolve_cons. rewrite Forall2_lookup in Hrel.
    destruct (Hrel i) as [x y Hxy |]; [| discriminate].
    inversion Hxy; subst; [discriminate |]. apply IH. assumption.
Qed.

Lemma isNoteLink_retitled a b :
  retitled newTitle a b -> Element.isNoteLink b = Element.isNoteLink a.
Proof.
  intros Hab. inversion Hab as [| d d' ? ? ? ? Hd]; subst; [reflexivity |].
  destruct d, d'; cbn in *; tauto.
Qed.

Lemma setText_fixed_retitled a b :
  retitled newTitle a b -> setText newTitle a = a -> setText newTitle b = b.
Proof.
  intros Hab. inversion Hab as [s s' marks Hs | d d' cs cs' t t' Hd Hcs Ht];
    subst; cbn; intros [= Heq]; subst.
  - destruct Hs; subst; reflexivity.
  - destruct Ht; subst; reflexivity.
Qed.

Lemma map_setText_fixed_retitled cs cs' :
  Forall2 (retitled newTitle) cs cs' ->
  map (setText newTitle) cs = cs ->
  map (setText newTitle) cs' = cs'.
Proof.
  induction 1 as [| x y xs ys Hxy Hrest IH]; [reflexivity |].
  cbn. intros [= Hx Hxs].
  rewrite (setText_fixed_retitled _ _ Hxy Hx), (IH Hxs). reflexivity.
Qed.

(** A link that a patch would leave as it is stays so when retitled. *)
Lemma retitle_fixed_retitled a b :
  retitled newTitle a b -> retitle newTitle a = a -> retitle newTitle b = b.
Proof.
  intros Hab. inversion Hab as [| d d' cs cs' t t' Hd Hcs Ht]; subst;
    [reflexivity |].
  destruct d as [target linkTitle flag | tag],
           d' as [target' linkTitle' flag' | tag'];
    cbn in Hd; try contradiction; [| reflexivity].
  destruct Hd as (-> & -> & Htitle). cbn. intros Hfix.
  injection Hfix as Hnew Hchildren. subst linkTitle.
  assert (linkTitle' = newTitle) as -> by (destruct Htitle; assumption).
  f_equal. destruct flag; [| reflexivity].
  apply (map_setText_fixed_retitled cs); assumption.
Qed.

(** A patch that changes nothing changes nothing in a retitled tree. *)
Lemma produce_settled_retitled base base' m :
  Forall2 (retitled newTitle) base base' ->
  produce base m newTitle = Normal base ->
  produce base' m newTitle = Normal base'.
Proof.
  intros Hrel. rewrite !produce_spec.
  destruct (resolve base (path m)) as [linkNode | e] eqn:Hres;
    [| discriminate].
  destruct (resolve_retitled _ _ _ _ Hrel Hres) as (linkNode' & Hres' & Hnode).
  rewrite Hres'. destruct Hnode as [node node' Hnode |]; [| reflexivity].
  rewrite (isNoteLink_retitled _ _ Hnode).
  destruct (Element.isNoteLink node); [| reflexivity].
  intros [= Hfix]. f_equal.
  apply (updateAt_fixed _ _ _ node' Hres').
  apply (retitle_fixed_retitled node); [exact Hnode |].
  pose proof (resolve_updateAt (retitle newTitle) _ _ _ Hres) as Hup.
  rewrite Hfix, Hres in Hup. congruence.
Qed.
End Retitled.

(** ** The matches of one backlink *)

Lemma patchContent_retitled newTitle ms : forall base final,
  patchContent base ms newTitle = Normal final ->
  Forall2 (retitled newTitle) base final.
Proof.
  induction ms as [| m rest IH]; intros base final; cbn.
  - intros [= <-]. apply retitled_list_refl.
  - destruct (produce base m newTitle) as [next | e] eqn:Hm; [| discriminate].
    intros Hrest. eapply retitled_list_trans.
    + eapply produce_retitled. exact Hm.
    + apply IH. exact Hrest.
Qed.

(** After the loop, each patch of the loop has nothing left to change. *)
Lemma patchContent_settled newTitle ms : forall base final,
  patchContent base ms newTitle = Normal final ->
  forall m, In m ms -> produce final m newTitle = Normal final.
Proof.
  induction ms as [| m0 rest IH]; intros base final; cbn; [tauto |].
  destruct (produce base m0 newTitle) as [next | e] eqn:Hm0; [| discriminate].
  intros Hrest m [<- | Hin].
  - apply (produce_settled_retitled newTitle next).
    + eapply patchContent_retitled. exact Hrest.
    + eapply produce_idem. exact Hm0.
  - eapply IH; eassumption.
Qed.

Lemma patchContent_fixed newTitle ms base :
  (forall m, In m ms -> produce base m newTitle = Normal base) ->
  patchContent base ms newTitle = Normal base.
Proof.
  induction ms as [| m rest IH]; intros Hfix; cbn; [reflexivity |].
  rewrite (Hfix m) by (left; reflexivity). apply IH.
  intros m' Hin. apply Hfix. right. exact Hin.
Qed.

(** The loop ends normally when every path resolved, without a throw, in a
    tree of which the content is a retitled copy. *)
Lemma patchContent_total newTitle original ms :
  (forall m, In m ms -> exists linkNode,
     resolve original (path m) = Normal linkNode) ->
  forall base,
    Forall2 (retitled newTitle) original base ->
    exists final, patchContent base ms newTitle = Normal final.
Proof.
  induction ms as [| m rest IH]; intros Hres base Hrel; cbn.
  - eexists. reflexivity.
  - destruct (Hres m (or_introl eq_refl)) as (linkNode & Hm).
    destruct (resolve_retitled _ _ _ _ _ Hrel Hm) as (linkNode' & Hm' & _).
    assert (exists next, produce base m newTitle = Normal next)
      as (next & Hnext).
    { rewrite produce_spec, Hm'.
      destruct linkNode' as [node |]; [| eauto].
      destruct (Element.isNoteLink node); eauto. }
    rewrite Hnext. apply IH.
    + intros m' Hin. apply Hres. right. exact Hin.
    + eapply retitled_list_trans; [exact Hrel |].
      eapply produce_retitled. exact Hnext.
Qed.

Lemma produce_settled_link newTitle base m node :
  produce base m newTitle = Normal base ->
  resolve base (path m) = Normal (Some node) ->
  retitle newTitle node = node.
Proof.
  rewrite produce_spec. intros Hfix Hres. rewrite Hres in Hfix.
  destruct (Element.isNoteLink node) eqn:Hlink.
  - injection Hfix as Hfix.
    pose proof (resolve_updateAt (retitle newTitle) _ _ _ Hres) as Hup.
    rewrite Hfix, Hres in Hup. congruence.
  - destruct node as [s marks | [] cs t]; try reflexivity. discriminate.
Qed.

(** C9: when the matches of a backlink were applied to a content, applying
    them again with the same title to the content obtained returns that
    content, unchanged. *)
Theorem C9_patch_idempotent content ms newTitle patched :
  patchContent content ms newTitle = Normal patched ->
  patchContent patched ms newTitle = Normal patched.
Proof.
  intros Hfirst. apply patchContent_fixed.
  eapply patchContent_settled. exact Hfirst.
Qed.

Lemma C9_witness :
  patchContent
    [Element (OtherElement "paragraph")
       [Element (NoteLink "b" "Bee" true)
          [Text "Bee" ["bold"]; Text "Bee" []] None] None]
    [mkMatch "Big Note" [0; 0]] "Bee"
  = Normal
    [Element (OtherElement "paragraph")
       [Element (NoteLink "b" "Bee" true)
          [Text "Bee" ["bold"]; Text "Bee" []] None] None].
Proof.
  apply (C9_patch_idempotent (note_content documentBold)
           [mkMatch "Big Note" [0; 0]] "Bee").
  reflexivity.
Defined.

(** ** The rows of the batch *)

Lemma find_by_note_id notes note :
  NoDup (map note_id notes) -> In note notes ->
  find (fun n => bool_decide (note_id n = note_id note)) notes = Some note.
Proof.
  induction notes as [| n rest IH]; cbn; [tauto |].
  intros Hnd [-> | Hin].
  - rewrite bool_decide_eq_true_2 by reflexivity. reflexivity.
  - apply NoDup_cons in Hnd as [Hn Hrest].
    rewrite bool_decide_eq_false_2; [auto |].
    intros Heq. apply Hn. rewrite Heq. apply list_elem_of_In, in_map, Hin.
Qed.

(** The loop when every backlink has its document and no patch throws. *)
Lemma forBacklinks_found user notes newTitle backlinks : forall rows acc w,
  Forall2 (fun b row =>
             exists note,
               find (fun n => bool_decide (note_id n = id b)) notes
                 = Some note /\
               patchContent (note_content note) (matches b) newTitle
                 = Normal (note_content row) /\
               note_id row = id b /\ note_title row = title b /\
               note_user_id row = user_id user)
          backlinks rows ->
  forBacklinks user notes newTitle backlinks acc w = (Normal (acc ++ rows), w).
Proof.
  induction backlinks as [| b rest IH]; intros rows acc w Hall;
    inversion Hall as [| ? row ? rows' Hrow Hrows]; subst.
  - cbn. rewrite app_nil_r. reflexivity.
  - destruct Hrow as (note & Hfind & Hpatch & Hid & Htitle & Huser).
    cbn [forBacklinks]. rewrite Hfind. unfold bind at 1, lift.
    rewrite Hpatch, (IH rows' _ w Hrows), <- app_assoc. cbn.
    destruct row; cbn in *; subst. reflexivity.
Qed.

Lemma Forall2_choose {A B} (P : A -> B -> Prop) l :
  Forall (fun a => exists b, P a b) l -> exists k, Forall2 P l k.
Proof.
  induction 1 as [| a l (b & Hb) _ (k & Hk)].
  - exists []. constructor.
  - exists (b :: k). constructor; assumption.
Qed.

Lemma getBacklinks_ids notes noteId :
  NoDup (map note_id notes) -> NoDup (map id (getBacklinks notes noteId)).
Proof.
  induction notes as [| note rest IH]; cbn [getBacklinks map].
  - intros _. constructor.
  - intros [Hn Hrest]%NoDup_cons. rewrite map_app.
    case_bool_decide; cbn; [| auto].
    apply NoDup_cons. split; [| auto].
    intros (b & Hid & Hb)%list_elem_of_In%in_map_iff.
    apply in_getBacklinks in Hb as (n & Hin & _ & ->). cbn in Hid.
    apply Hn. rewrite <- Hid. apply list_elem_of_In, in_map, Hin.
Qed.

(** The matches of a document, applied to it: no patch throws, and every
    matched link ends with the new title. *)
Lemma patchContent_of_matches content noteId newTitle :
  exists patched,
    patchContent content (getBacklinkMatches content noteId) newTitle
      = Normal patched /\
    forall m, In m (getBacklinkMatches content noteId) ->
      exists flag cs t,
        resolve patched (path m) =
          Normal (Some (Element (NoteLink noteId newTitle flag) cs t)).
Proof.
  destruct (patchContent_total newTitle content
              (getBacklinkMatches content noteId)) with (base := content)
    as (patched & Hpatched).
  { intros m (_ & _ & _ & link & _ & _ & _ & Hres & _)
      %match_resolves. eauto. }
  { apply retitled_list_refl. }
  exists patched. split; [exact Hpatched |]. intros m Hin.
  pose proof (patchContent_settled _ _ _ _ Hpatched m Hin) as Hsettled.
  apply match_resolves in Hin
    as (_ & _ & _ & link & _ & _ & _ & Hres & Hlink & _).
  destruct (resolve_retitled newTitle _ _ _ _
              (patchContent_retitled _ _ _ _ Hpatched) Hres)
    as (linkNode' & Hres' & Hrel).
  inversion Hrel as [? link' Hlinks |]; subst.
  pose proof (produce_settled_link _ _ _ _ Hsettled Hres') as Hfix.
  destruct link as [| [target linkTitle flag | tag] cs t]; try discriminate.
  cbn in Hlink. apply andb_prop in Hlink as [Htarget _].
  apply bool_decide_eq_true in Htarget as ->.
  inversion Hlinks as [| ? d' ? cs' ? t' Hd _ _]; subst.
  destruct d' as [target' linkTitle' flag' |]; [| contradiction].
  destruct Hd as (-> & -> & _). cbn in Hfix. injection Hfix as <- _.
  rewrite Hres'. eauto.
Qed.

Lemma hook_row user notes noteId newTitle b :
  NoDup (map note_id notes) ->
  In b (getBacklinks notes noteId) ->
  exists row,
    rowFor user notes noteId newTitle b row /\
    exists note,
      find (fun n => bool_decide (note_id n = id b)) notes = Some note /\
      patchContent (note_content note) (matches b) newTitle
        = Normal (note_content row) /\
      note_id row = id b /\ note_title row = title b /\
      note_user_id row = user_id user.
Proof.
  intros Hnd (note & Hin & _ & ->)%in_getBacklinks.
  destruct (patchContent_of_matches (note_content note) noteId newTitle)
    as (patched & Hpatched & Hlinks).
  exists (mkNote (note_id note) (note_title note) (user_id user) patched).
  split.
  - split; [reflexivity |]. split; [reflexivity |].
    exists note. cbn. auto.
  - exists note. cbn. split; [apply find_by_note_id; assumption | auto].
Qed.

(** C8: with the identifiers of the documents all different, the callback
    of the hook ends normally and hands over one batch, with one row for
    each backlink, in order and no identifier twice; the row of a backlink
    has the identifier and the stored title of its document, whatever the
    new title is, the identifier of the user as owner and the content with
    every match applied. *)
Theorem C8_one_row_per_backlink user notes noteId newTitle w :
  NoDup (map note_id notes) ->
  exists rows,
    snd (useBacklinks (Some user) notes noteId) newTitle w =
      (Normal tt, mkWorld (console w) (upserts w ++ [rows])) /\
    Forall2 (rowFor user notes noteId newTitle)
      (getBacklinks notes noteId) rows /\
    NoDup (map note_id rows).
Proof.
  intros Hnd.
  destruct (Forall2_choose
              (fun b row =>
                 rowFor user notes noteId newTitle b row /\
                 exists note,
                   find (fun n => bool_decide (note_id n = id b)) notes
                     = Some note /\
                   patchContent (note_content note) (matches b) newTitle
                     = Normal (note_content row) /\
                   note_id row = id b /\ note_title row = title b /\
                   note_user_id row = user_id user)
              (getBacklinks notes noteId)) as (rows & Hrows).
  { apply List.Forall_forall. intros b Hb. apply hook_row; assumption. }
  exists rows. split; [| split].
  - cbn [useBacklinks snd updateBacklinks]. unfold bind.
    rewrite (forBacklinks_found user notes newTitle _ rows [] w).
    + reflexivity.
    + eapply Forall2_impl; [exact Hrows |]. cbn. tauto.
  - eapply Forall2_impl; [exact Hrows |]. cbn. tauto.
  - replace (map note_id rows) with (map id (getBacklinks notes noteId)).
    + apply getBacklinks_ids, Hnd.
    + clear Hnd. induction Hrows as [| b row bs rs Hrow _ IH];
        [reflexivity |].
      cbn. rewrite IH. destruct Hrow as ((-> & _) & _). reflexivity.
Qed.

Lemma C8_witness :
  exists rows,
    snd (useBacklinks (Some (mkUser "u1")) [documentA; documentB] "b")
      "Bee" emptyWorld =
      (Normal tt, mkWorld [] [rows]) /\
    Forall2 (rowFor (mkUser "u1") [documentA; documentB] "b" "Bee")
      (getBacklinks [documentA; documentB] "b") rows /\
    NoDup (map note_id rows).
Proof.
  apply (C8_one_row_per_backlink (mkUser "u1") [documentA; documentB]
           "b" "Bee" emptyWorld).
  apply (bool_decide_unpack _). vm_compute. exact I.
Defined.

(** * Further properties *)

(** ** The batch as a whole *)

(** The loop over the backlinks, whatever they are: when it ends normally
    the rows pushed are those of the backlinks that have a note, in order,
    and one message was written for each backlink without a note; when it
    throws, a patch of some backlink threw. The table is not touched. *)
Lemma forBacklinks_spec user notes newTitle backlinks : forall acc w,
  match forBacklinks user notes newTitle backlinks acc w with
  | (Normal upsertData, w') =>
      upserts w' = upserts w /\
      console w' = console w ++
        map missingContentMessage
          (List.filter (fun b => negb (hasNote notes b)) backlinks) /\
      exists rows,
        upsertData = acc ++ rows /\
        Forall2 (pushedRow user notes newTitle)
          (List.filter (hasNote notes) backlinks) rows
  | (Throw e, w') =>
      upserts w' = upserts w /\
      exists b note,
        In b backlinks /\
        find (fun n => bool_decide (note_id n = id b)) notes = Some note /\
        patchContent (note_content note) (matches b) newTitle = Throw e
  end.
Proof.
  induction backlinks as [| b rest IH]; intros acc w.
  - cbn. split; [reflexivity |]. split; [rewrite app_nil_r; reflexivity |].
    exists []. split; [rewrite app_nil_r; reflexivity | constructor].
  - cbn [forBacklinks List.filter].
    assert (hasNote notes b =
            match find (fun n => bool_decide (note_id n = id b)) notes with
            | Some _ => true | None => false end) as Hhas by reflexivity.
    destruct (find _ notes) as [note |] eqn:Hfind; rewrite Hhas; cbn [negb].
    + unfold bind at 1, lift.
      destruct (patchContent (note_content note) (matches b) newTitle)
        as [patched | e] eqn:Hpatch.
      * specialize (IH (acc ++ [mkNote (id b) (title b) (user_id user)
                                  patched]) w).
        destruct (forBacklinks _ _ _ rest _ w) as [[upsertData | e] w'].
        -- destruct IH as (Hup & Hcon & rows & -> & Hrows).
           split; [exact Hup |]. split; [exact Hcon |].
           eexists (_ :: rows). rewrite <- app_assoc.
           split; [reflexivity |]. constructor; [| exact Hrows].
           repeat split. exists note. auto.
        -- destruct IH as (Hup & b' & note' & Hin & Hfind' & Hthrow).
           split; [exact Hup |]. exists b', note'. auto using in_cons.
      * split; [reflexivity |]. exists b, note. auto using in_eq.
    + unfold bind at 1, console_error.
      specialize (IH acc (mkWorld (console w ++ [missingContentMessage b])
                            (upserts w))).
      unfold missingContentMessage at 1 in IH.
      destruct (forBacklinks _ _ _ rest _ _) as [[upsertData | e] w'].
      * destruct IH as (Hup & Hcon & Hrows). split; [exact Hup |].
        split; [| exact Hrows]. rewrite Hcon. cbn. rewrite <- app_assoc.
        reflexivity.
      * destruct IH as (Hup & b' & note' & Hin & Hfind' & Hthrow).
        split; [exact Hup |]. exists b', note'. auto using in_cons.
Qed.

(** X1: when the callback, run for a user, ends normally, it has handed one
    batch to the table: one row for each backlink that has a note in the
    collection, in the order of the backlinks, with the identifier and the
    title of the backlink, the identifier of the user and the patched
    content of the note; and it has written one message for each backlink
    without a note, in order. *)
Theorem X1_normal_completion user notes backlinks newTitle w w' :
  updateBacklinks (Some user) notes backlinks newTitle w = (Normal tt, w') ->
  console w' = console w ++
    map missingContentMessage
      (List.filter (fun b => negb (hasNote notes b)) backlinks) /\
  exists rows,
    upserts w' = upserts w ++ [rows] /\
    Forall2 (pushedRow user notes newTitle)
      (List.filter (hasNote notes) backlinks) rows.
Proof.
  cbn [updateBacklinks]. unfold bind.
  pose proof (forBacklinks_spec user notes newTitle backlinks [] w) as Hspec.
  destruct (forBacklinks user notes newTitle backlinks [] w)
    as [[upsertData | e] w1]; [| discriminate].
  destruct Hspec as (Hup & Hcon & rows & -> & Hrows).
  cbn. intros [= <-]. cbn. split; [exact Hcon |].
  exists rows. rewrite Hup. auto.
Qed.

Lemma X1_witness :
  console (mkWorld ["No backlink content found for note z"]
             [[mkNote "a" "Old" "u1"
                 [Element (OtherElement "paragraph")
                    [Element (NoteLink "b" "Bee" true) [Text "Bee" []] None]
                    None]]]) =
    console emptyWorld ++
    map missingContentMessage
      (List.filter (fun b => negb (hasNote [documentA; documentB] b))
         [mkBacklink "z" "Z" [mkMatch "" [0; 0]];
          mkBacklink "a" "Old" [mkMatch "B" [0; 0]]]) /\
  exists rows,
    upserts (mkWorld ["No backlink content found for note z"]
               [[mkNote "a" "Old" "u1"
                   [Element (OtherElement "paragraph")
                      [Element (NoteLink "b" "Bee" true) [Text "Bee" []] None]
                      None]]]) = upserts emptyWorld ++ [rows] /\
    Forall2 (pushedRow (mkUser "u1") [documentA; documentB] "Bee")
      (List.filter (hasNote [documentA; documentB])
         [mkBacklink "z" "Z" [mkMatch "" [0; 0]];
          mkBacklink "a" "Old" [mkMatch "B" [0; 0]]]) rows.
Proof.
  apply (X1_normal_completion (mkUser "u1") [documentA; documentB]
           [mkBacklink "z" "Z" [mkMatch "" [0; 0]];
            mkBacklink "a" "Old" [mkMatch "B" [0; 0]]] "Bee" emptyWorld).
  reflexivity.
Defined.

(** X2: the callback, run for a user, throws exactly when the patch of some
    backlink that has a note throws; then nothing is handed to the table,
    not even the rows of the backlinks before it. *)
Theorem X2_throw_aborts_the_batch user notes backlinks newTitle w :
  (exists b note,
     In b backlinks /\
     find (fun n => bool_decide (note_id n = id b)) notes = Some note /\
     patchContent (note_content note) (matches b) newTitle
       = Throw TypeError) <->
  (exists w',
     updateBacklinks (Some user) notes backlinks newTitle w
       = (Throw TypeError, w') /\
     upserts w' = upserts w).
Proof.
  cbn [updateBacklinks]. unfold bind.
  pose proof (forBacklinks_spec user notes newTitle backlinks [] w) as Hspec.
  destruct (forBacklinks user notes newTitle backlinks [] w)
    as [[upsertData | []] w1].
  - destruct Hspec as (_ & _ & rows & _ & Hrows). split.
    + intros (b & note & Hin & Hfind & Hthrow). exfalso.
      assert (In b (List.filter (hasNote notes) backlinks)) as Hb.
      { apply filter_In. split; [exact Hin |]. unfold hasNote.
        rewrite Hfind. reflexivity. }
      apply list_elem_of_In, list_elem_of_lookup in Hb as (k & Hk).
      destruct (Forall2_lookup_l _ _ _ _ _ Hrows Hk)
        as (row & _ & _ & _ & _ & note' & Hfind' & Hpatch).
      congruence.
    + intros (w' & Hrun & _). discriminate.
  - destruct Hspec as (Hup & Hthrow). split; [| intros _; exact Hthrow].
    intros _. exists w1. auto.
Qed.

Lemma X2_witness :
  exists w',
    updateBacklinks (Some (mkUser "u1"))
      [documentA; mkNote "c" "C" "owner" paragraphX]
      [mkBacklink "a" "Old" [mkMatch "B" [0; 0]];
       mkBacklink "c" "C" [mkMatch "x" [0; 0; 0]]] "Bee" emptyWorld
      = (Throw TypeError, w') /\
    upserts w' = upserts emptyWorld.
Proof.
  apply (proj1 (X2_throw_aborts_the_batch (mkUser "u1")
                  [documentA; mkNote "c" "C" "owner" paragraphX]
                  [mkBacklink "a" "Old" [mkMatch "B" [0; 0]];
                   mkBacklink "c" "C" [mkMatch "x" [0; 0; 0]]]
                  "Bee" emptyWorld)).
  exists (mkBacklink "c" "C" [mkMatch "x" [0; 0; 0]]),
         (mkNote "c" "C" "owner" paragraphX).
  split; [right; left; reflexivity |]. split; reflexivity.
Defined.

Lemma forBacklinks_all_missing user notes newTitle backlinks : forall acc w,
  (forall b, In b backlinks -> hasNote notes b = false) ->
  forBacklinks user notes newTitle backlinks acc w =
    (Normal acc,
     mkWorld (console w ++ map missingContentMessage backlinks) (upserts w)).
Proof.
  induction backlinks as [| b rest IH]; intros acc w Hmissing.
  - cbn. rewrite app_nil_r. destruct w; reflexivity.
  - pose proof (Hmissing b (or_introl eq_refl)) as Hb. unfold hasNote in Hb.
    cbn [forBacklinks].
    destruct (find _ notes); [discriminate |].
    unfold bind at 1, console_error. rewrite IH.
    + cbn. rewrite <- app_assoc. reflexivity.
    + intros b' Hin. apply Hmissing. right. exact Hin.
Qed.

(** X3: when no backlink has a note in the collection (so also when there
    is no backlink at all), the callback writes one message for each
    backlink and still calls the table once, with an empty batch. *)
Theorem X3_missing_notes_give_empty_batch user notes backlinks newTitle w :
  (forall b, In b backlinks -> hasNote notes b = false) ->
  updateBacklinks (Some user) notes backlinks newTitle w =
    (Normal tt,
     mkWorld (console w ++ map missingContentMessage backlinks)
       (upserts w ++ [[]])).
Proof.
  intros Hmissing. cbn [updateBacklinks]. unfold bind.
  rewrite forBacklinks_all_missing by exact Hmissing. reflexivity.
Qed.

Lemma X3_witness :
  updateBacklinks (Some (mkUser "u1")) [documentA]
    [mkBacklink "z" "Z" [mkMatch "" [0; 0]]] "Bee" emptyWorld =
    (Normal tt,
     mkWorld (console emptyWorld ++
                map missingContentMessage
                  [mkBacklink "z" "Z" [mkMatch "" [0; 0]]])
       (upserts emptyWorld ++ [[]])).
Proof.
  apply (X3_missing_notes_give_empty_batch (mkUser "u1") [documentA]
           [mkBacklink "z" "Z" [mkMatch "" [0; 0]]] "Bee" emptyWorld).
  intros b [<- | []]. reflexivity.
Defined.

(** ** One patch *)

(** X4: when the path of a match resolves to a note link, the patch ends
    normally and the path then resolves to that link with the new title;
    the target and the flag are kept, the children are kept when the flag
    is off, and each of them has its [text] set to the new title when the
    flag is on. *)
Theorem X4_patched_link base m newTitle target linkTitle flag cs t :
  resolve base (path m) =
    Normal (Some (Element (NoteLink target linkTitle flag) cs t)) ->
  exists next,
    produce base m newTitle = Normal next /\
    resolve next (path m) =
      Normal (Some (Element (NoteLink target newTitle flag)
                      (if flag then map (setText newTitle) cs else cs) t)).
Proof.
  intros Hres. exists (updateAt (retitle newTitle) (path m) base).
  rewrite produce_spec, Hres. split; [reflexivity |].
  apply (resolve_updateAt (retitle newTitle)) in Hres. exact Hres.
Qed.

Lemma X4_witness :
  exists next,
    produce (note_content documentBold) (mkMatch "Big Note" [0; 0]) "Bee"
      = Normal next /\
    resolve next [0; 0] =
      Normal (Some (Element (NoteLink "b" "Bee" true)
                      [Text "Bee" ["bold"]; Text "Bee" []] None)).
Proof.
  apply (X4_patched_link (note_content documentBold)
           (mkMatch "Big Note" [0; 0]) "Bee" "b" "Big Note" true
           [Text "Big " ["bold"]; Text "Note" []] None).
  reflexivity.
Defined.

(** X5: a patch whose path is empty, or leads to nothing (an index out of
    range at the last step), to a text node or to an element that is not a
    note link, returns the content as it is. *)
Theorem X5_patch_without_link_is_noop base m newTitle :
  path m = [] \/
  (exists linkNode,
     resolve base (path m) = Normal linkNode /\
     forall node, linkNode = Some node -> Element.isNoteLink node = false) ->
  produce base m newTitle = Normal base.
Proof.
  rewrite produce_spec. intros [-> | (linkNode & -> & Hnot)]; [reflexivity |].
  destruct linkNode as [node |]; [| reflexivity].
  rewrite (Hnot node eq_refl). reflexivity.
Qed.

Lemma X5_witness :
  produce (note_content documentA) (mkMatch "B" [0; 7]) "Bee"
    = Normal (note_content documentA).
Proof.
  apply (X5_patch_without_link_is_noop (note_content documentA)
           (mkMatch "B" [0; 7]) "Bee").
  right. exists None. split; [reflexivity | discriminate].
Defined.

Lemma resolve_throws content p :
  resolve content p = Throw TypeError <->
  exists before i rest linkNode,
    p = before ++ i :: rest /\ before <> [] /\
    resolve content before = Normal linkNode /\
    forall node, linkNode = Some node -> Element.isElement node = false.
Proof.
  revert content.
  induction p as [| i | i j rest IH] using path_ind2; intros content.
  - split; [discriminate |].
    intros (before & k & r & _ & Hp & _). destruct before; discriminate.
  - split; [discriminate |].
    intros (before & k & r & _ & Hp & Hne & _).
    destruct before as [| a [| b before]]; try congruence; discriminate.
  - rewrite resolve_cons.
    destruct (content !! i) as [[s marks | d cs t] |] eqn:Hi.
    + split; [intros _ | reflexivity].
      exists [i], j, rest, (Some (Text s marks)). rewrite resolve_one, Hi.
      repeat split; [discriminate |]. intros node [= <-]. reflexivity.
    + rewrite IH. split.
      * intros (before & k & r & linkNode & Hp & Hne & Hres & Hnot).
        exists (i :: before), k, r, linkNode. rewrite Hp.
        split; [reflexivity |]. split; [discriminate |].
        split; [| exact Hnot].
        destruct before as [| b before]; [congruence |].
        rewrite resolve_cons, Hi. exact Hres.
      * intros (before & k & r & linkNode & Hp & Hne & Hres & Hnot).
        destruct before as [| a [| b before]]; [congruence | |].
        -- injection Hp as <- <- <-. rewrite resolve_one, Hi in Hres.
           injection Hres as <-. specialize (Hnot _ eq_refl). discriminate.
        -- injection Hp as <- -> ->. rewrite resolve_cons, Hi in Hres.
           exists (b :: before), k, r, linkNode.
           split; [reflexivity |]. split; [discriminate | auto].
    + split; [intros _ | reflexivity].
      exists [i], j, rest, None. rewrite resolve_one, Hi.
      repeat split; [discriminate |]. discriminate.
Qed.

(** X6: a patch throws exactly when some step of its path before the last
    one lands on a text node or on nothing: the path has a non-empty
    proper prefix that resolves to a node that is not an element. *)
Theorem X6_patch_throws_iff base m newTitle :
  produce base m newTitle = Throw TypeError <->
  exists before i rest linkNode,
    path m = before ++ i :: rest /\ before <> [] /\
    resolve base before = Normal linkNode /\
    forall node, linkNode = Some node -> Element.isElement node = false.
Proof.
  rewrite <- resolve_throws, produce_spec.
  destruct (resolve base (path m)) as [[node |] | []].
  - destruct (Element.isNoteLink node); split; discriminate.
  - split; discriminate.
  - split; reflexivity.
Qed.

Lemma X6_witness :
  produce paragraphX (mkMatch "x" [0; 0; 0]) "Bee" = Throw TypeError.
Proof.
  apply (proj2 (X6_patch_throws_iff paragraphX (mkMatch "x" [0; 0; 0])
                  "Bee")).
  exists [0; 0], 0, [], (Some (Text "x" [])).
  split; [reflexivity |]. split; [discriminate |].
  split; [reflexivity |]. intros node [= <-]. reflexivity.
Defined.

(** The string of [n] copies of the title. *)
Lemma concat_constant_map (newTitle : string) (cs : list Descendant) :
  String.concat "" (map (fun _ => newTitle) cs) =
  String.concat "" (repeat newTitle (length cs)).
Proof.
  f_equal. induction cs as [| c cs IH]; [reflexivity |].
  cbn. rewrite IH. reflexivity.
Qed.

(** X7: after the patch of a link that mirrors the title, the flattened
    text of the link is the new title once for each child of the link,
    whatever the children are: it is the new title itself exactly when the
    link has one child. *)
Theorem X7_mirrored_text_once_per_child base m newTitle target linkTitle cs :
  resolve base (path m) =
    Normal (Some (Element (NoteLink target linkTitle true) cs None)) ->
  exists next link,
    produce base m newTitle = Normal next /\
    resolve next (path m) = Normal (Some link) /\
    Node.string link = String.concat "" (repeat newTitle (length cs)).
Proof.
  intros Hres. exists (updateAt (retitle newTitle) (path m) base).
  eexists. rewrite produce_spec, Hres. split; [reflexivity |].
  split; [apply (resolve_updateAt (retitle newTitle)), Hres |].
  rewrite <- concat_constant_map. cbn. rewrite map_map. f_equal.
  apply map_ext. intros child. apply string_setText.
Qed.

Lemma X7_witness :
  exists next link,
    produce (note_content documentBold) (mkMatch "Big Note" [0; 0]) "Bee"
      = Normal next /\
    resolve next [0; 0] = Normal (Some link) /\
    Node.string link = "BeeBee".
Proof.
  apply (X7_mirrored_text_once_per_child (note_content documentBold)
           (mkMatch "Big Note" [0; 0]) "Bee" "b" "Big Note"
           [Text "Big " ["bold"]; Text "Note" []]).
  reflexivity.
Defined.

(** ** What the patches of a backlink keep *)

(** X8: the patches of a backlink keep the shape of the content: the
    result is the content where some link titles and some [text]
    properties were set to the new title. In particular a path that led to
    a note link still leads to a note link with the same target, the same
    flag and as many children. *)
Theorem X8_patches_keep_the_shape base ms newTitle final :
  patchContent base ms newTitle = Normal final ->
  Forall2 (retitled newTitle) base final /\
  length final = length base /\
  forall q target linkTitle flag cs t,
    resolve base q =
      Normal (Some (Element (NoteLink target linkTitle flag) cs t)) ->
    exists linkTitle' cs' t',
      resolve final q =
        Normal (Some (Element (NoteLink target linkTitle' flag) cs' t')) /\
      (linkTitle' = linkTitle \/ linkTitle' = newTitle) /\
      length cs' = length cs.
Proof.
  intros Hrel%patchContent_retitled. split; [exact Hrel |].
  split; [symmetry; eapply Forall2_length; exact Hrel |].
  intros q target linkTitle flag cs t Hres.
  destruct (resolve_retitled newTitle _ _ _ _ Hrel Hres)
    as (linkNode' & Hres' & Hnode).
  inversion Hnode as [? node' Hlink |]; subst.
  inversion Hlink as [| ? d' ? cs' ? t' Hd Hcs _]; subst.
  destruct d' as [target' linkTitle' flag' |]; [| contradiction].
  destruct Hd as (-> & -> & Htitle).
  exists linkTitle', cs', t'. split; [exact Hres' |].
  split; [exact Htitle |]. symmetry. eapply Forall2_length. exact Hcs.
Qed.

Lemma X8_witness :
  Forall2 (retitled "Bee") (note_content documentA)
    [Element (OtherElement "paragraph")
       [Element (NoteLink "b" "Bee" true) [Text "Bee" []] None] None] /\
  length
    [Element (OtherElement "paragraph")
       [Element (NoteLink "b" "Bee" true) [Text "Bee" []] None] None]
  = length (note_content documentA) /\
  forall q target linkTitle flag cs t,
    resolve (note_content documentA) q =
      Normal (Some (Element (NoteLink target linkTitle flag) cs t)) ->
    exists linkTitle' cs' t',
      resolve
        [Element (OtherElement "paragraph")
           [Element (NoteLink "b" "Bee" true) [Text "Bee" []] None] None] q =
        Normal (Some (Element (NoteLink target linkTitle' flag) cs' t')) /\
      (linkTitle' = linkTitle \/ linkTitle' = "Bee") /\
      length cs' = length cs.
Proof.
  apply (X8_patches_keep_the_shape (note_content documentA)
           [mkMatch "B" [0; 0]] "Bee").
  reflexivity.
Defined.

Lemma resolve_updateAt_diverge f common : forall content i j a b,
  i <> j ->
  resolve (updateAt f (common ++ i :: a) content) (common ++ j :: b) =
  resolve content (common ++ j :: b).
Proof.
  induction common as [| k common IH]; intros content i j a b Hij.
  - cbn [app updateAt resolve]. rewrite list_lookup_alter_ne by exact Hij.
    reflexivity.
  - cbn [app]. specialize (IH).
    destruct (common ++ i :: a) as [| x xs] eqn:Hp;
      [destruct common; discriminate |].
    destruct (common ++ j :: b) as [| y ys] eqn:Hq;
      [destruct common; discriminate |].
    rewrite updateAt_cons, !resolve_cons, list_lookup_alter_eq.
    destruct (content !! k) as [[s marks | d cs t] |]; try reflexivity.
    cbn [fmap option_fmap option_map]. rewrite <- Hp, <- Hq. apply IH, Hij.
Qed.

Lemma resolve_updateAt_below newTitle p : forall content k j rest,
  resolve (updateAt (retitle newTitle) p content) (p ++ k :: j :: rest) =
  resolve content (p ++ k :: j :: rest).
Proof.
  induction p as [| i | i i' p IH] using path_ind2; intros content k j rest.
  - reflexivity.
  - cbn [app]. rewrite updateAt_one, !resolve_cons, list_lookup_alter_eq.
    destruct (content !! i)
      as [[s marks | [target linkTitle [] | tag] cs t] |]; try reflexivity.
    cbn [fmap option_fmap option_map retitle]. rewrite !resolve_cons.
    change (map (setText newTitle) cs !! k)
      with ((setText newTitle <$> cs) !! k).
    rewrite list_lookup_fmap.
    destruct (cs !! k) as [[s' marks' | d' cs' t'] |]; reflexivity.
  - cbn [app]. rewrite updateAt_cons, !resolve_cons, list_lookup_alter_eq.
    destruct (content !! i) as [[s marks | d cs t] |]; try reflexivity.
    cbn [fmap option_fmap option_map]. apply (IH cs).
Qed.

(** X9: the patches of a backlink are local. Take a path that, for every
    match, either leaves the path of the match at some index (it turns to
    another child there) or goes two steps or more below it (below a child
    of the matched link): it leads to the same node before and after, or
    throws before and after. So only the nodes on the matched paths, their
    ancestors and the children of the matched links can change. *)
Theorem X9_patches_are_local ms newTitle q : forall base final,
  (forall m, In m ms ->
     (exists common i j rest rest',
        i <> j /\ path m = common ++ i :: rest /\
        q = common ++ j :: rest') \/
     (exists k j rest, q = path m ++ k :: j :: rest)) ->
  patchContent base ms newTitle = Normal final ->
  resolve final q = resolve base q.
Proof.
  induction ms as [| m ms IH]; intros base final Hfar; cbn.
  - intros [= <-]. reflexivity.
  - destruct (produce base m newTitle) as [next | e] eqn:Hm; [| discriminate].
    intros Hrest. rewrite (IH next final) by auto using in_cons.
    rewrite produce_spec in Hm.
    destruct (resolve base (path m)) as [[node |] | e];
      [| injection Hm as <-; reflexivity | discriminate].
    destruct (Element.isNoteLink node); injection Hm as <-; [| reflexivity].
    destruct (Hfar m (or_introl eq_refl))
      as [(common & i & j & rest & rest' & Hij & Hp & ->)
         | (k & j & rest & ->)].
    + rewrite Hp. apply resolve_updateAt_diverge, Hij.
    + apply resolve_updateAt_below.
Qed.

Lemma X9_witness :
  resolve
    [Element (OtherElement "paragraph")
       [Element (NoteLink "b" "Bee" true) [Text "Bee" []] None] None] [0; 1]
  = resolve (note_content documentA) [0; 1].
Proof.
  apply (X9_patches_are_local [mkMatch "B" [0; 0]] "Bee" [0; 1]
           (note_content documentA)).
  - intros m [<- | []]. left. exists [0], 0, 1, [], [].
    split; [discriminate |]. split; reflexivity.
  - reflexivity.
Defined.

(** ** The result of the finder *)

(** X10: the backlinks the finder returns are those of the notes that have
    at least one match: each backlink carries the identifier and the title
    of such a note and all the matches of its content, never an empty list
    of matches; and every note with a match has its backlink. *)
Theorem X10_backlinks_are_notes_with_matches notes noteId b :
  In b (getBacklinks notes noteId) <->
  exists note,
    In note notes /\
    id b = note_id note /\ title b = note_title note /\
    matches b = getBacklinkMatches (note_content note) noteId /\
    matches b <> [].
Proof.
  rewrite in_getBacklinks. split.
  - intros (note & Hin & Hne & ->). exists note. cbn. auto.
  - intros (note & Hin & Hid & Htitle & Hm & Hne). exists note.
    split; [exact Hin |]. rewrite <- Hm. split; [exact Hne |].
    destruct b; cbn in *; congruence.
Qed.

Lemma X10_witness :
  exists note,
    In note [documentA; documentB] /\
    id (mkBacklink "a" "Old" [mkMatch "B" [0; 0]]) = note_id note /\
    title (mkBacklink "a" "Old" [mkMatch "B" [0; 0]]) = note_title note /\
    matches (mkBacklink "a" "Old" [mkMatch "B" [0; 0]]) =
      getBacklinkMatches (note_content note) "b" /\
    matches (mkBacklink "a" "Old" [mkMatch "B" [0; 0]]) <> [].
Proof.
  apply (proj1 (X10_backlinks_are_notes_with_matches
                  [documentA; documentB] "b"
                  (mkBacklink "a" "Old" [mkMatch "B" [0; 0]]))).
  left. reflexivity.
Defined.

(** X11: the backlinks come in the order of the notes: their identifiers
    are those of the notes with some of them left out, so there are never
    more backlinks than notes. *)
Theorem X11_backlinks_follow_note_order notes noteId :
  sublist (map id (getBacklinks notes noteId)) (map note_id notes) /\
  length (getBacklinks notes noteId) <= length notes.
Proof.
  assert (sublist (map id (getBacklinks notes noteId)) (map note_id notes))
    as Hsub.
  { induction notes as [| note rest IH]; cbn [getBacklinks map].
    - constructor.
    - rewrite map_app. case_bool_decide; cbn.
      + apply sublist_skip, IH.
      + apply sublist_cons, IH. }
  split; [exact Hsub |].
  apply sublist_length in Hsub. rewrite !length_map in Hsub. exact Hsub.
Qed.

(** ** The order of the matches *)

Lemma pathLt_app p a b : pathLt a b -> pathLt (p ++ a) (p ++ b).
Proof. intros Hab. induction p; cbn; [exact Hab | constructor; assumption]. Qed.

Lemma pathLt_irrefl p : ~ pathLt p p.
Proof.
  induction p as [| i p IH]; intros Hlt; inversion Hlt; subst; [lia | auto].
Qed.

Lemma StronglySorted_app {A} (R : A -> A -> Prop) l1 l2 :
  StronglySorted R l1 -> StronglySorted R l2 ->
  (forall x y, In x l1 -> In y l2 -> R x y) ->
  StronglySorted R (l1 ++ l2).
Proof.
  induction 1 as [| x l1 Hl1 IH Hx]; intros Hl2 Hcross; [exact Hl2 |].
  cbn. constructor.
  - apply IH; [exact Hl2 |]. intros a b Ha Hb. apply Hcross; [right |]; auto.
  - apply List.Forall_forall. intros y [Hy | Hy]%in_app_iff.
    + rewrite List.Forall_forall in Hx. auto.
    + apply Hcross; [left; reflexivity | exact Hy].
Qed.

Lemma StronglySorted_NoDup {A} (R : A -> A -> Prop) l :
  (forall x, ~ R x x) -> StronglySorted R l -> NoDup l.
Proof.
  intros Hirr. induction 1 as [| x l Hl IH Hx]; constructor; [| exact IH].
  intros Hin%list_elem_of_In. rewrite List.Forall_forall in Hx.
  exact (Hirr x (Hx x Hin)).
Qed.

(** The paths the helper records at [p] are proper extensions of [p]. *)
Lemma getBacklinkMatchesHelper_paths node noteId p m :
  In m (getBacklinkMatchesHelper node noteId p) ->
  exists i rel, path m = p ++ i :: rel.
Proof.
  intros (rel & i & _ & _ & Hp & _)%getBacklinkMatchesHelper_sound.
  destruct rel as [| k rel].
  - exists i, []. exact Hp.
  - exists k, (rel ++ [i]). exact Hp.
Qed.

Lemma childMatches_paths parent noteId p cs index m :
  In m (childMatches parent noteId p cs index) ->
  exists k rel, path m = p ++ (index + k) :: rel.
Proof.
  intros (k & child & _ & _ & [[_ ->] | Hrec])%in_childMatches.
  - exists k, []. reflexivity.
  - apply getBacklinkMatchesHelper_paths in Hrec as (i & rel & ->).
    exists k, (i :: rel). rewrite <- app_assoc. reflexivity.
Qed.

Lemma childMatches_sorted parent noteId p cs :
  Forall (fun child => forall q,
            StronglySorted pathLt
              (map path (getBacklinkMatchesHelper child noteId q))) cs ->
  forall index,
    StronglySorted pathLt
      (map path (childMatches parent noteId p cs index)).
Proof.
  induction 1 as [| child rest Hchild _ IH]; intros index; cbn [childMatches].
  - constructor.
  - rewrite map_app. apply StronglySorted_app; [| apply IH |].
    + destruct (Element.isElement child); [| constructor].
      rewrite map_app. apply StronglySorted_app; [| apply Hchild |].
      * destruct (linksTo noteId child); repeat constructor.
      * intros x y Hx (m & <- & Hm)%in_map_iff.
        destruct (linksTo noteId child); [| contradiction].
        destruct Hx as [<- | []]. cbn [path].
        apply getBacklinkMatchesHelper_paths in Hm as (i & rel & ->).
        rewrite <- app_assoc. apply pathLt_app. cbn. apply pathLt_eq.
        constructor.
    + intros x y (mx & <- & Hx)%in_map_iff (my & <- & Hy)%in_map_iff.
      apply childMatches_paths in Hy as (k & rel & ->).
      assert (exists rel', path mx = p ++ index :: rel') as (rel' & ->).
      { destruct (Element.isElement child); [| contradiction].
        apply in_app_iff in Hx as [Hx | Hx].
        - destruct (linksTo noteId child); [| contradiction].
          destruct Hx as [<- | []]. exists []. reflexivity.
        - apply getBacklinkMatchesHelper_paths in Hx as (i & rel' & ->).
          exists (i :: rel'). rewrite <- app_assoc. reflexivity. }
      apply pathLt_app, pathLt_lt. lia.
Qed.

Lemma getBacklinkMatchesHelper_sorted node noteId : forall p,
  StronglySorted pathLt (map path (getBacklinkMatchesHelper node noteId p)).
Proof.
  induction node as [s marks | d cs t IH] using Descendant_nested_ind;
    intros p; rewrite getBacklinkMatchesHelper_unfold.
  - constructor.
  - destruct (Text.isText (Element d cs t)); [constructor |].
    apply childMatches_sorted, IH.
Qed.

Lemma getBacklinkMatchesFrom_sorted nodes noteId : forall index,
  StronglySorted pathLt
    (map path (getBacklinkMatchesFrom nodes noteId index)).
Proof.
  induction nodes as [| node rest IH]; intros index;
    cbn [getBacklinkMatchesFrom]; [constructor |].
  rewrite map_app. apply StronglySorted_app;
    [apply getBacklinkMatchesHelper_sorted | apply IH |].
  intros x y (mx & <- & Hx)%in_map_iff (my & <- & Hy)%in_map_iff.
  apply getBacklinkMatchesHelper_paths in Hx as (i & rel & ->).
  apply in_getBacklinkMatchesFrom in Hy as (k & node' & _ & Hy).
  apply getBacklinkMatchesHelper_paths in Hy as (j & rel' & ->).
  cbn. apply pathLt_lt. lia.
Qed.

(** X12: the matches of a content come in document order, each path before
    the next: a link is recorded before the links inside it and before the
    links of the later children. So no path is recorded twice. *)
Theorem X12_matches_in_document_order content noteId :
  StronglySorted pathLt (map path (getBacklinkMatches content noteId)) /\
  NoDup (map path (getBacklinkMatches content noteId)).
Proof.
  assert (StronglySorted pathLt
            (map path (getBacklinkMatches content noteId))) as Hsorted
    by apply getBacklinkMatchesFrom_sorted.
  split; [exact Hsorted |].
  eapply StronglySorted_NoDup; [apply pathLt_irrefl | exact Hsorted].
Qed.

(** ** The order of the patches *)

Lemma updateAt_unresolved f p : forall content,
  resolve content p = Normal None -> updateAt f p content = content.
Proof.
  induction p as [| i | i j rest IH] using path_ind2; intros content.
  - reflexivity.
  - rewrite resolve_one, updateAt_one. intros [= Hi]. apply list_eq.
    intros k. destruct (decide (i = k)) as [<- |].
    + rewrite list_lookup_alter_eq, Hi. reflexivity.
    + apply list_lookup_alter_ne. assumption.
  - rewrite resolve_cons, updateAt_cons. intros Hres. apply list_eq.
    intros k. destruct (decide (i = k)) as [<- |];
      [| apply list_lookup_alter_ne; assumption].
    rewrite list_lookup_alter_eq.
    destruct (content !! i) as [[s marks | d cs t] |]; try discriminate.
    cbn [fmap option_fmap option_map]. rewrite (IH cs Hres). reflexivity.
Qed.

(** A patch that does not throw is the update at its path, which does
    nothing when the path leads to no note link. *)
Lemma produce_updateAt base m newTitle :
  produce base m newTitle =
  match resolve base (path m) with
  | Throw e => Throw e
  | Normal _ => Normal (updateAt (retitle newTitle) (path m) base)
  end.
Proof.
  rewrite produce_spec.
  destruct (resolve base (path m)) as [[node |] | e] eqn:Hres;
    [| rewrite (updateAt_unresolved _ _ _ Hres) |]; try reflexivity.
  destruct (Element.isNoteLink node) eqn:Hlink; [reflexivity |].
  rewrite (updateAt_fixed _ _ _ node Hres); [reflexivity |].
  destruct node as [s marks | [] cs t]; try reflexivity. discriminate.
Qed.

Lemma resolve_retitled_throw newTitle p : forall content content' e,
  Forall2 (retitled newTitle) content content' ->
  resolve content p = Throw e -> resolve content' p = Throw e.
Proof.
  induction p as [| i | i j rest IH] using path_ind2;
    intros content content' e Hrel; try discriminate.
  rewrite !resolve_cons. rewrite Forall2_lookup in Hrel.
  destruct (Hrel i) as [x y Hxy |]; [| auto].
  inversion Hxy; subst; [auto |]. apply IH. assumption.
Qed.

Lemma setText_retitle newTitle node :
  setText newTitle (retitle newTitle node) =
  retitle newTitle (setText newTitle node).
Proof. destruct node as [s marks | [] cs t]; reflexivity. Qed.

Lemma map_setText_updateAt newTitle q cs :
  map (setText newTitle) (updateAt (retitle newTitle) q cs) =
  updateAt (retitle newTitle) q (map (setText newTitle) cs).
Proof.
  destruct q as [| k q]; [reflexivity |]. cbn [updateAt].
  apply (list_fmap_alter (setText newTitle)). apply List.Forall_forall.
  intros x _. destruct q; [apply setText_retitle |].
  destruct x; reflexivity.
Qed.

(** Two updates commute, whatever their paths. *)
Lemma updateAt_retitle_comm newTitle p : forall q content,
  updateAt (retitle newTitle) p (updateAt (retitle newTitle) q content) =
  updateAt (retitle newTitle) q (updateAt (retitle newTitle) p content).
Proof.
  induction p as [| i p IH]; intros q content; [reflexivity |].
  destruct q as [| j q]; [reflexivity |].
  cbn [updateAt]. destruct (decide (i = j)) as [<- | Hij];
    [| apply list_alter_alter_ne; exact Hij].
  rewrite !list_alter_alter_eq. apply list_alter_ext; [| reflexivity].
  intros x _. cbn [compose].
  destruct p as [| a p], q as [| b q]; try reflexivity.
  - destruct x as [s marks | [target linkTitle [] | tag] cs t];
      try reflexivity.
    cbn [retitle]. rewrite map_setText_updateAt. reflexivity.
  - destruct x as [s marks | [target linkTitle [] | tag] cs t];
      try reflexivity.
    cbn [retitle]. rewrite map_setText_updateAt. reflexivity.
  - destruct x as [s marks | d cs t]; [reflexivity |].
    rewrite IH. reflexivity.
Qed.

Lemma produce_swap base m1 m2 newTitle :
  match produce base m1 newTitle with
  | Normal next => produce next m2 newTitle
  | Throw e => Throw e
  end =
  match produce base m2 newTitle with
  | Normal next => produce next m1 newTitle
  | Throw e => Throw e
  end.
Proof.
  rewrite (produce_updateAt base m1), (produce_updateAt base m2).
  pose proof (retitled_updateAt newTitle (retitle newTitle) (path m1)
                (retitled_retitle newTitle) base) as Hrel1.
  pose proof (retitled_updateAt newTitle (retitle newTitle) (path m2)
                (retitled_retitle newTitle) base) as Hrel2.
  destruct (resolve base (path m1)) as [n1 | []] eqn:H1,
           (resolve base (path m2)) as [n2 | []] eqn:H2;
    rewrite ?produce_updateAt.
  - destruct (resolve_retitled newTitle _ _ _ _ Hrel1 H2) as (? & -> & _).
    destruct (resolve_retitled newTitle _ _ _ _ Hrel2 H1) as (? & -> & _).
    rewrite updateAt_retitle_comm. reflexivity.
  - rewrite (resolve_retitled_throw newTitle _ _ _ _ Hrel1 H2). reflexivity.
  - rewrite (resolve_retitled_throw newTitle _ _ _ _ Hrel2 H1). reflexivity.
  - reflexivity.
Qed.

(** X13: the order of the matches of a backlink does not matter: applied
    in any order, the patches give the same content, or throw alike. *)
Theorem X13_patch_order_is_irrelevant ms ms' newTitle :
  Permutation ms ms' ->
  forall base,
    patchContent base ms newTitle = patchContent base ms' newTitle.
Proof.
  induction 1 as [| m l l' _ IH | m1 m2 l | l1 l2 l3 _ IH1 _ IH2];
    intros base.
  - reflexivity.
  - cbn. destruct (produce base m newTitle); [apply IH | reflexivity].
  - cbn. pose proof (produce_swap base m2 m1 newTitle) as Hswap.
    destruct (produce base m2 newTitle) as [x | e],
             (produce base m1 newTitle) as [y | e'].
    + destruct (produce x m1 newTitle), (produce y m2 newTitle);
        congruence.
    + destruct (produce x m1 newTitle); congruence.
    + destruct (produce y m2 newTitle); congruence.
    + congruence.
  - rewrite IH1. apply IH2.
Qed.

Lemma X13_witness :
  patchContent (note_content documentBold)
    [mkMatch "Big Note" [0; 0]; mkMatch "" [0; 0; 1]] "Bee" =
  patchContent (note_content documentBold)
    [mkMatch "" [0; 0; 1]; mkMatch "Big Note" [0; 0]] "Bee".
Proof.
  apply (X13_patch_order_is_irrelevant
           [mkMatch "Big Note" [0; 0]; mkMatch "" [0; 0; 1]]
           [mkMatch "" [0; 0; 1]; mkMatch "Big Note" [0; 0]] "Bee").
  apply perm_swap.
Defined.

(** ** The callback of the hook *)

Lemma find_note_id_some notes note :
  In note notes ->
  find (fun n => bool_decide (note_id n = note_id note)) notes <> None.
Proof.
  induction notes as [| n rest IH]; cbn; [tauto |].
  intros [-> | Hin].
  - rewrite bool_decide_eq_true_2 by reflexivity. discriminate.
  - destruct (bool_decide (note_id n = note_id note)); [discriminate | auto].
Qed.

Lemma forBacklinks_console user notes newTitle backlinks : forall acc w,
  (forall b, In b backlinks -> hasNote notes b = true) ->
  console (snd (forBacklinks user notes newTitle backlinks acc w))
    = console w.
Proof.
  induction backlinks as [| b rest IH]; intros acc w Hall; [reflexivity |].
  pose proof (Hall b (or_introl eq_refl)) as Hb. unfold hasNote in Hb.
  cbn [forBacklinks]. destruct (find _ notes) as [note |]; [| discriminate].
  unfold bind at 1, lift.
  destruct (patchContent (note_content note) (matches b) newTitle);
    [| reflexivity].
  apply IH. intros b' Hin. apply Hall. right. exact Hin.
Qed.

(** X14: the callback of the hook never writes the message of a missing
    content: every backlink the finder returned has its note in the
    collection, whether the identifiers of the notes are all different or
    not, and whether the callback ends normally or not. *)
Theorem X14_hook_never_misses_a_note user notes noteId newTitle w :
  (forall b, In b (fst (useBacklinks user notes noteId)) ->
     hasNote notes b = true) /\
  console (snd (snd (useBacklinks user notes noteId) newTitle w))
    = console w.
Proof.
  assert (forall b, In b (getBacklinks notes noteId) ->
            hasNote notes b = true) as Hall.
  { intros b (note & Hin & _ & ->)%in_getBacklinks. unfold hasNote. cbn [id].
    pose proof (find_note_id_some notes note Hin) as Hfind.
    destruct (find _ notes); [reflexivity | congruence]. }
  split; [exact Hall |].
  destruct user as [u |]; [| reflexivity].
  cbn [useBacklinks snd updateBacklinks]. unfold bind.
  pose proof (forBacklinks_console u notes newTitle
                (getBacklinks notes noteId) [] w Hall) as Hcon.
  destruct (forBacklinks u notes newTitle (getBacklinks notes noteId) [] w)
    as [[rows | e] w1]; exact Hcon.
Qed.

(** ** Matches of different targets *)

(** X15: a path is matched for one target only: two matches of the same
    content with the same path were found for the same note identifier. So
    the backlinks of two different notes never share a link. *)
Theorem X15_one_target_per_path content noteId noteId' m m' :
  In m (getBacklinkMatches content noteId) ->
  In m' (getBacklinkMatches content noteId') ->
  path m = path m' ->
  noteId = noteId'.
Proof.
  intros (_ & _ & _ & link & _ & _ & _ & Hres & Hlink & _)%match_resolves
         (_ & _ & _ & link' & _ & _ & _ & Hres' & Hlink' & _)%match_resolves
         Hpath.
  rewrite Hpath, Hres' in Hres. injection Hres as <-.
  destruct link' as [| [target linkTitle flag | tag] cs t]; try discriminate.
  cbn in Hlink, Hlink'.
  apply andb_prop in Hlink as [Ht _], Hlink' as [Ht' _].
  apply bool_decide_eq_true in Ht, Ht'. congruence.
Qed.

Lemma X15_witness : "b" = "b".
Proof.
  apply (X15_one_target_per_path (note_content documentA) "b" "b"
           (mkMatch "B" [0; 0]) (mkMatch "B" [0; 0])).
  - left. reflexivity.
  - left. reflexivity.
  - reflexivity.
Defined.

(** ** Patches that find no link *)



